(** * check-disk-io: the metric registry and its exposition renderer

    A shallow embedding of [main.go]: the [MetricGroup] series with its
    [AddMetric] and [Output] methods, and [executeCheck], which fills the
    eleven series from the disk collaborators and prints them.

    Conventions of the embedding.
    - Go strings are byte strings: [string].
    - Go maps are [gmap]s.  A [range] over a map visits every entry once, in
      an order the language leaves open and that may change from one loop
      to the next: a loop over a map is therefore run along a _visit_, any
      permutation of the entries ([Go.range_order]), and a method that
      ranges over a map is a relation between its input and its results.
    - A [uint64] is a [Z]; a [float64] is a [spec_float] of precision 53.
    - Standard output is the list of the writes made so far, one string per
      [Printf] or [Println] call; the byte stream is their concatenation.
    - A nil-pointer dereference (a registry lookup that misses) is a panic:
      a statement returns [None]. *)

From Stdlib Require Import ZArith Ascii List.
From Stdlib Require Import Floats.SpecFloat.
From stdpp Require Import gmap strings list fin_maps pretty.

(** ** The Go primitives the program uses *)

Module Go.

Definition quote : string := String "034"%char EmptyString.
Definition newline : string := String "010"%char EmptyString.

Definition float64 : Type := spec_float.

(** The conversion [float64(n)] of a [uint64]: round to nearest, ties to even. *)
Definition float64_of_uint64 (n : Z) : float64 := binary_normalize 53 1024 n 0 false.

(** An [error] value is identified with the text of its [Error()] method. *)
Definition error : Type := string.

(** [strings.Join]. *)
Fixpoint Join (elems : list string) (sep : string) : string :=
  match elems with
  | [] => EmptyString
  | [s] => s
  | s :: rest => s +:+ sep +:+ Join rest sep
  end.

(** [fmt.Sprintf] on operands that are already text: [%s] and [%v] print the
    next operand, [%%] a percent sign; a verb without operand and a verb
    that does not fit a string print as [fmt] reports them.  Operands left
    over are not reported (the program never has any). *)
Fixpoint Sprintf (format : string) (args : list string) : string :=
  match format with
  | EmptyString => EmptyString
  | String c rest =>
      if Ascii.eqb c "%" then
        match rest with
        | EmptyString => "%!(NOVERB)"
        | String verb rest' =>
            if Ascii.eqb verb "%" then String "%" (Sprintf rest' args)
            else
              match args with
              | [] => "%!" +:+ String verb "(MISSING)" +:+ Sprintf rest' []
              | a :: args' =>
                  (if Ascii.eqb verb "s" || Ascii.eqb verb "v" then a
                   else "%!" +:+ String verb ("(string=" +:+ a +:+ ")"))
                  +:+ Sprintf rest' args'
              end
        end
      else String c (Sprintf rest args)
  end.

(** [fmt.Println] of one string. *)
Definition Println (s : string) : string := s +:+ newline.

(** The orders in which a [range] loop may visit the entries of a map. *)
Definition range_order `{Countable K} {V : Type} (m : gmap K V) (visit : list (K * V)) : Prop :=
  visit ≡ₚ map_to_list m.

End Go.

Import Go.

(** ** The gopsutil records ([disk.PartitionStat], [disk.IOCountersStat]) and
    the sensu status; only the fields [main.go] reads are kept. *)

Module disk.

Record PartitionStat : Type := {
  Device : string;
  Mountpoint : string
}.

Record IOCountersStat : Type := {
  ReadCount : Z;
  MergedReadCount : Z;
  WriteCount : Z;
  MergedWriteCount : Z;
  ReadBytes : Z;
  WriteBytes : Z;
  ReadTime : Z;
  WriteTime : Z;
  IopsInProgress : Z;
  IoTime : Z;
  WeightedIO : Z;
  Name : string
}.

End disk.

Module sensu.

Definition CheckStateOK : Z := 0.

End sensu.

(** ** [MetricGroup] and [Metric] *)

Record Metric : Type := {
  Tags : gmap string string;
  Value : float64
}.

Record MetricGroup : Type := {
  Comment : string;
  Type_ : string;
  Name : string;
  Metrics : list Metric
}.

(** [func (g *MetricGroup) AddMetric(tags, value)]: the receiver after the call. *)
Definition AddMetric (g : MetricGroup) (tags : gmap string string) (value : float64) : MetricGroup :=
  {| Comment := Comment g;
     Type_ := Type_ g;
     Name := Name g;
     Metrics := Metrics g ++ [ {| Tags := tags; Value := value |} ] |}.

(** The program state: what has been written and the registry, a map from
    series name to the series it points to. *)
Record Run : Type := {
  stdout : list string;
  groups : gmap string MetricGroup
}.

(** A statement either panics or yields the next state. *)
Definition Step : Type := Run → option Run.

Fixpoint run (stmts : list Step) (st : Run) : option Run :=
  match stmts with
  | [] => Some st
  | s :: rest => st' ← s st; run rest st'
  end.

Definition Printf (format : string) (args : list string) : Step :=
  λ st, Some {| stdout := stdout st ++ [Sprintf format args]; groups := groups st |}.

(** [metricGroups[key].AddMetric(tags, value)] *)
Definition AddMetric_at (key : string) (tags : gmap string string) (value : float64) : Step :=
  λ st, g ← groups st !! key;
        Some {| stdout := stdout st; groups := <[key := AddMetric g tags value]> (groups st) |}.

(** The registry literal of [executeCheck]. *)
Definition metricGroups_literal : list (string * MetricGroup) :=
  [ ("disk_read_bytes",
     {| Name := "disk_read_bytes"; Type_ := "COUNTER";
        Comment := "These values count the number of bytes read from or written to this block device.";
        Metrics := [] |});
    ("disk_write_bytes",
     {| Name := "disk_write_bytes"; Type_ := "COUNTER";
        Comment := "These values count the number of bytes read from or written to this block device.";
        Metrics := [] |});
    ("disk_read_count",
     {| Name := "disk_read_count"; Type_ := "COUNTER";
        Comment := "These values increment when an I/O request completes.";
        Metrics := [] |});
    ("disk_write_count",
     {| Name := "disk_write_count"; Type_ := "COUNTER";
        Comment := "These values increment when an I/O request completes.";
        Metrics := [] |});
    ("disk_read_time",
     {| Name := "disk_read_time"; Type_ := "COUNTER";
        Comment := "These values count the number of milliseconds that I/O requests have waited on this block device. If there are multiple I/O requests waiting, these values will increase at a rate greater than 1000/second; for example, if 60 read requests wait for an average of 30 ms, the read_time field will increase by 60*30 = 1800.";
        Metrics := [] |});
    ("disk_write_time",
     {| Name := "disk_write_time"; Type_ := "COUNTER";
        Comment := "These values count the number of milliseconds that I/O requests have waited on this block device. If there are multiple I/O requests waiting, these values will increase at a rate greater than 1000/second; for example, if 60 read requests wait for an average of 30 ms, the read_time field will increase by 60*30 = 1800.";
        Metrics := [] |});
    ("disk_io_time",
     {| Name := "disk_io_time"; Type_ := "COUNTER";
        Comment := "This value counts the number of milliseconds during which the device has had I/O requests queued.";
        Metrics := [] |});
    ("disk_weighted_io",
     {| Name := "disk_weighted_io"; Type_ := "COUNTER";
        Comment := "This value counts the number of milliseconds that I/O requests have waited on this block device. If there are multiple I/O requests waiting, this value will increase as the product of the number of milliseconds times the number of requests waiting (see disk_read_time for an example).";
        Metrics := [] |});
    ("disk_iops_in_progress",
     {| Name := "disk_iops_in_progress"; Type_ := "GAUGE";
        Comment := "This value counts the number of I/O requests that have been issued to the device driver but have not yet completed. It does not include I/O requests that are in the queue but not yet issued to the device driver.";
        Metrics := [] |});
    ("disk_merged_read_count",
     {| Name := "disk_merged_read_count"; Type_ := "COUNTER";
        Comment := "Reads and writes which are adjacent to each other may be merged for efficiency. Thus, two 4K reads may become one 8K read before it is ultimately handed to the disk, and so it will be counted (and queued) as only one I/O. These fields lets you know how often this was done.";
        Metrics := [] |});
    ("disk_merged_write_count",
     {| Name := "disk_merged_write_count"; Type_ := "COUNTER";
        Comment := "Reads and writes which are adjacent to each other may be merged for efficiency. Thus, two 4K reads may become one 8K read before it is ultimately handed to the disk, and so it will be counted (and queued) as only one I/O. These fields lets you know how often this was done.";
        Metrics := [] |}) ].

Definition metricGroups : gmap string MetricGroup := list_to_map metricGroups_literal.

(** The tag-set literal built for one counter record. *)
Definition record_tags (p : disk.PartitionStat) (v : disk.IOCountersStat) : gmap string string :=
  <["mountpoint" := disk.Mountpoint p]> (<["device" := disk.Name v]> ∅).

(** The body of [for _, v := range diskio]: eleven appends, in program order. *)
Definition record_body (p : disk.PartitionStat) (v : disk.IOCountersStat) : list Step :=
  let tags := record_tags p v in
  [ AddMetric_at "disk_read_bytes" tags (float64_of_uint64 (disk.ReadBytes v));
    AddMetric_at "disk_write_bytes" tags (float64_of_uint64 (disk.WriteBytes v));
    AddMetric_at "disk_read_count" tags (float64_of_uint64 (disk.ReadCount v));
    AddMetric_at "disk_write_count" tags (float64_of_uint64 (disk.WriteCount v));
    AddMetric_at "disk_read_time" tags (float64_of_uint64 (disk.ReadTime v));
    AddMetric_at "disk_write_time" tags (float64_of_uint64 (disk.WriteTime v));
    AddMetric_at "disk_io_time" tags (float64_of_uint64 (disk.IoTime v));
    AddMetric_at "disk_weighted_io" tags (float64_of_uint64 (disk.WeightedIO v));
    AddMetric_at "disk_iops_in_progress" tags (float64_of_uint64 (disk.IopsInProgress v));
    AddMetric_at "disk_merged_read_count" tags (float64_of_uint64 (disk.MergedReadCount v));
    AddMetric_at "disk_merged_write_count" tags (float64_of_uint64 (disk.MergedWriteCount v)) ].

(** What a collaborator call returns: the value and the error, as Go does. *)
Definition PartitionsResult : Type := list disk.PartitionStat * option error.
Definition IOCountersResult : Type := gmap string disk.IOCountersStat * option error.

Section Program.

(** [fmt.Sprintf("%v", x)] for a [float64] [x]: the formatter of the Go library. *)
Variable Sprintf_v : float64 → string.

(** The collaborators: [disk.Partitions(false)] and [disk.IOCounters(device)]. *)
Variable Partitions : PartitionsResult.
Variable IOCounters : string → IOCountersResult.

(** The inner loop of [Output] over the tags of one observation, along a visit. *)
Definition tagStr_loop (visit : list (string * string)) : string :=
  foldl (λ tagStr kv,
           let tagStr := if bool_decide (0 < String.length tagStr) then tagStr +:+ "," else tagStr in
           tagStr +:+ kv.1 +:+ "=" +:+ quote +:+ kv.2 +:+ quote)
        EmptyString visit.

(** One iteration of [for _, m := range g.Metrics]: the line it prints. *)
Definition metric_line (name : string) (visit : list (string * string)) (value : float64) : string :=
  let tagStr := tagStr_loop visit in
  let tagStr := if bool_decide (0 < String.length tagStr) then "{" +:+ tagStr +:+ "}" else tagStr in
  Println (Join [name +:+ tagStr; Sprintf "%v" [Sprintf_v value]] " ").

(** [func (g *MetricGroup) Output()] along one visit per observation: the
    receiver after the call and the writes, in order. *)
Definition Output_with (g : MetricGroup) (visits : list (list (string * string)))
  : MetricGroup * list string :=
  (g,
   [ Sprintf ("# HELP %s [%s] %s" +:+ newline) [Name g; Type_ g; Comment g];
     Sprintf ("# TYPE %s %s" +:+ newline) [Name g; Type_ g] ]
   ++ zip_with (λ m visit, metric_line (Name g) visit (Value m)) (Metrics g) visits
   ++ [ Println EmptyString ]).

Definition Output (g : MetricGroup) (r : MetricGroup * list string) : Prop :=
  ∃ visits, Forall2 (λ m visit, range_order (Tags m) visit) (Metrics g) visits
            ∧ r = Output_with g visits.

(** The body of [for _, p := range parts], along a visit of [diskio]. *)
Definition partition_body (p : disk.PartitionStat) (visit : list (string * disk.IOCountersStat))
  : list Step :=
  match (IOCounters (disk.Device p)).2 with
  | Some err => [ Printf "Failed to get IO counters, error: %v" [err] ]
  | None => []
  end
  ++ concat (map (λ kv, record_body p kv.2) visit).

(** [executeCheck] up to the render loop: the statements run, given the
    visit of each [diskio]. *)
Definition collection (visits : list (list (string * disk.IOCountersStat))) : list Step :=
  match Partitions.2 with
  | Some err => [ Printf "Failed to get partitions, error: %v" [err] ]
  | None => []
  end
  ++ concat (zip_with partition_body Partitions.1 visits).

Definition initial : Run := {| stdout := []; groups := metricGroups |}.

(** [executeCheck]: what is written and what is returned, or [None] on a
    panic.  The [event] argument is not read. *)
Definition executeCheck (res : option (list string * (Z * option error))) : Prop :=
  ∃ visits,
    Forall2 (λ p visit, range_order (IOCounters (disk.Device p)).1 visit) Partitions.1 visits
    ∧ match run (collection visits) initial with
      | None => res = None
      | Some st =>
          ∃ order rs,
            range_order (groups st) order
            ∧ Forall2 (λ kv r, Output kv.2 r) order rs
            ∧ res = Some (stdout st ++ concat rs.*2, (sensu.CheckStateOK, None))
      end.

End Program.

(** ** Vocabulary of the statements *)

(** The text of one tag. *)
Definition tag_pair (kv : string * string) : string :=
  kv.1 +:+ "=" +:+ quote +:+ kv.2 +:+ quote.

(** The tag fragment as the specification words it: nothing for no tag,
    otherwise the pairs joined by commas, in braces. *)
Definition tag_fragment (visit : list (string * string)) : string :=
  match visit with
  | [] => EmptyString
  | _ :: _ => "{" +:+ Join (tag_pair <$> visit) "," +:+ "}"
  end.

(** The observation line as the specification words it. *)
Definition observation_line (Sprintf_v : float64 → string)
    (name : string) (visit : list (string * string)) (value : float64) : string :=
  name +:+ tag_fragment visit +:+ " " +:+ Sprintf_v value +:+ newline.

Definition help_line (name type help : string) : string :=
  "# HELP " +:+ name +:+ " [" +:+ type +:+ "] " +:+ help +:+ newline.

Definition type_line (name type : string) : string :=
  "# TYPE " +:+ name +:+ " " +:+ type +:+ newline.

(** A HELP/TYPE block of the series [name]: the two header lines, observation
    lines of that series, a blank line. *)
Definition is_block (Sprintf_v : float64 → string) (name type : string) (block : list string) : Prop :=
  ∃ help lines,
    block = [help_line name type help; type_line name type] ++ lines ++ [newline]
    ∧ Forall (λ line, ∃ visit value, line = observation_line Sprintf_v name visit value) lines.

(** The two diagnostics of [executeCheck]; neither ends its line. *)
Definition is_diagnostic (s : string) : Prop :=
  ∃ err : error,
    s = "Failed to get partitions, error: " +:+ err
    ∨ s = "Failed to get IO counters, error: " +:+ err.

(** The catalog of the specification: names and types, in its order. *)
Definition series_catalog : list (string * string) :=
  [ ("disk_read_bytes", "COUNTER");
    ("disk_write_bytes", "COUNTER");
    ("disk_read_count", "COUNTER");
    ("disk_write_count", "COUNTER");
    ("disk_read_time", "COUNTER");
    ("disk_write_time", "COUNTER");
    ("disk_io_time", "COUNTER");
    ("disk_weighted_io", "COUNTER");
    ("disk_iops_in_progress", "GAUGE");
    ("disk_merged_read_count", "COUNTER");
    ("disk_merged_write_count", "COUNTER") ].

(** Which counter each series receives (the eleven appends of [record_body]). *)
Definition fields : list (string * (disk.IOCountersStat → Z)) :=
  [ ("disk_read_bytes", disk.ReadBytes);
    ("disk_write_bytes", disk.WriteBytes);
    ("disk_read_count", disk.ReadCount);
    ("disk_write_count", disk.WriteCount);
    ("disk_read_time", disk.ReadTime);
    ("disk_write_time", disk.WriteTime);
    ("disk_io_time", disk.IoTime);
    ("disk_weighted_io", disk.WeightedIO);
    ("disk_iops_in_progress", disk.IopsInProgress);
    ("disk_merged_read_count", disk.MergedReadCount);
    ("disk_merged_write_count", disk.MergedWriteCount) ].

(** The observation a series receives for the record [v] of partition [p]. *)
Definition observation (field : disk.IOCountersStat → Z)
    (pv : disk.PartitionStat * disk.IOCountersStat) : Metric :=
  {| Tags := record_tags pv.1 pv.2; Value := float64_of_uint64 (field pv.2) |}.

(** The registry literal joined with [fields]: each series with its counter. *)
Definition series_table : list (string * (MetricGroup * (disk.IOCountersStat → Z))) :=
  zip_with (λ kg kf, (kg.1, (kg.2, kf.2))) metricGroups_literal fields.

(** A series once the records [recs] have been processed. *)
Definition series_after (recs : list (disk.PartitionStat * disk.IOCountersStat))
    (gf : MetricGroup * (disk.IOCountersStat → Z)) : MetricGroup :=
  {| Comment := Comment gf.1; Type_ := Type_ gf.1; Name := Name gf.1;
     Metrics := observation gf.2 <$> recs |}.

(** The registry once the records [recs] have been processed, in closed form. *)
Definition registry_after (recs : list (disk.PartitionStat * disk.IOCountersStat))
  : gmap string MetricGroup :=
  series_after recs <$> list_to_map series_table.

(** The records the collection pass processes, in order. *)
Definition records (parts : list disk.PartitionStat)
    (visits : list (list (string * disk.IOCountersStat)))
  : list (disk.PartitionStat * disk.IOCountersStat) :=
  concat (zip_with (λ p visit, (λ kv : string * disk.IOCountersStat, (p, kv.2)) <$> visit) parts visits).

(** The state at a program point: after the first [n] statements. *)
Definition point (stmts : list Step) (n : nat) : option Run := run (take n stmts) initial.

Definition same_identity (g g' : MetricGroup) : Prop :=
  Name g' = Name g ∧ Type_ g' = Type_ g ∧ Comment g' = Comment g.

(** A registry grows into another: every series is still there, with the
    identity it had, and its observations now start with those it had. *)
Definition grows (reg reg' : gmap string MetricGroup) : Prop :=
  ∀ key g, reg !! key = Some g →
           ∃ g', reg' !! key = Some g' ∧ same_identity g g' ∧ Metrics g `prefix_of` Metrics g'.

Definition equal_counts (reg : gmap string MetricGroup) : Prop :=
  ∀ k1 k2 g1 g2, reg !! k1 = Some g1 → reg !! k2 = Some g2 →
                 length (Metrics g1) = length (Metrics g2).

(** Statement sequences made of diagnostics and of whole record bodies, with
    the records they process. *)
Inductive whole_records : list Step → list (disk.PartitionStat * disk.IOCountersStat) → Prop :=
  | whole_start : whole_records [] []
  | whole_print stmts recs format args :
      is_diagnostic (Sprintf format args) →
      whole_records stmts recs →
      whole_records (stmts ++ [Printf format args]) recs
  | whole_record stmts recs p v :
      whole_records stmts recs →
      whole_records (stmts ++ record_body p v) (recs ++ [(p, v)]).

(** The statements the collection pass is made of. *)
Inductive pass_stmt : Step → Prop :=
  | pass_print format args : pass_stmt (Printf format args)
  | pass_add key tags value : pass_stmt (AddMetric_at key tags value).

(** [executeCheck] along the visits the maps list their entries in. *)
Definition executeCheck_listed (Sprintf_v : float64 → string)
    (Partitions : PartitionsResult) (IOCounters : string → IOCountersResult)
  : option (list string * (Z * option error)) :=
  let visits := (λ p, map_to_list (IOCounters (disk.Device p)).1) <$> Partitions.1 in
  st ← run (collection Partitions IOCounters visits) initial;
  let rs := (λ kv : string * MetricGroup,
               Output_with Sprintf_v kv.2 ((λ m, map_to_list (Tags m)) <$> Metrics kv.2))
            <$> map_to_list (groups st) in
  Some (stdout st ++ concat rs.*2, (sensu.CheckStateOK, None)).

(** ** A machine to run the program on *)

Module Example.

(** A formatter for the examples: integral values in plain decimal, as [%v]
    prints 1024; any other finite value as mantissa and binary exponent. *)
Definition format_plain (x : float64) : string :=
  match x with
  | S754_zero false => "0"
  | S754_zero true => "-0"
  | S754_infinity false => "+Inf"
  | S754_infinity true => "-Inf"
  | S754_nan => "NaN"
  | S754_finite s m e =>
      (if s then "-" else EmptyString) +:+
      (if bool_decide (0 ≤ e)%Z then pretty (Z.pos m * 2 ^ e)%Z
       else if bool_decide (Z.pos m `mod` 2 ^ (- e) = 0)%Z then pretty (Z.pos m `div` 2 ^ (- e))%Z
       else pretty (Z.pos m) +:+ "p" +:+ pretty e)
  end.

Definition sda : disk.PartitionStat := {| disk.Device := "/dev/sda"; disk.Mountpoint := "/" |}.
Definition sdb : disk.PartitionStat := {| disk.Device := "/dev/sdb"; disk.Mountpoint := "/data" |}.

Definition sda_stat : disk.IOCountersStat :=
  {| disk.ReadCount := 0; disk.MergedReadCount := 0; disk.WriteCount := 0;
     disk.MergedWriteCount := 0; disk.ReadBytes := 1024; disk.WriteBytes := 2048;
     disk.ReadTime := 0; disk.WriteTime := 0; disk.IopsInProgress := 0;
     disk.IoTime := 0; disk.WeightedIO := 0; disk.Name := "sda" |}.

(** One disk, read without error. *)
Definition one_disk : PartitionsResult := ([sda], None).

(** Two disks; the counters of the second cannot be read. *)
Definition two_disks : PartitionsResult := ([sda; sdb], None).

Definition IOCounters (device : string) : IOCountersResult :=
  if bool_decide (device = "/dev/sda") then ({[ "sda" := sda_stat ]}, None)
  else (∅, Some "no such device").

(** A series with one observation carrying two tags, and two renderings of it. *)
Definition read_bytes : MetricGroup :=
  {| Name := "disk_read_bytes"; Type_ := "COUNTER"; Comment := "bytes read";
     Metrics := [ observation disk.ReadBytes (sda, sda_stat) ] |}.

Definition device_first : list (string * string) := [("device", "sda"); ("mountpoint", "/")].
Definition mountpoint_first : list (string * string) := [("mountpoint", "/"); ("device", "sda")].

End Example.

(** ** Vocabulary of the further properties *)

(** The byte stream of a sequence of writes. *)
Definition bytes (out : list string) : string := foldr String.append EmptyString out.

(** What a failed enumeration writes. *)
Definition partitions_failure (Partitions : PartitionsResult) : list string :=
  match Partitions.2 with
  | Some err => [ "Failed to get partitions, error: " +:+ err ]
  | None => []
  end.

(** What a failed counter retrieval writes. *)
Definition counters_failure (IOCounters : string → IOCountersResult) (p : disk.PartitionStat)
  : list string :=
  match (IOCounters (disk.Device p)).2 with
  | Some err => [ "Failed to get IO counters, error: " +:+ err ]
  | None => []
  end.

(** The diagnostics of a run: the enumeration's, then one per partition whose
    counters failed, in the order of the partitions. *)
Definition diagnostics (Partitions : PartitionsResult) (IOCounters : string → IOCountersResult)
  : list string :=
  partitions_failure Partitions ++ concat (counters_failure IOCounters <$> Partitions.1).

(** The block of one series over the records [recs], each observation's tags
    printed along its visit. *)
Definition series_block (Sprintf_v : float64 → string)
    (gf : MetricGroup * (disk.IOCountersStat → Z))
    (recs : list (disk.PartitionStat * disk.IOCountersStat))
    (visits : list (list (string * string))) : list string :=
  [ help_line (Name gf.1) (Type_ gf.1) (Comment gf.1); type_line (Name gf.1) (Type_ gf.1) ]
  ++ zip_with (λ pv visit, observation_line Sprintf_v (Name gf.1) visit
                             (float64_of_uint64 (gf.2 pv.2)))
              recs visits
  ++ [ newline ].

(** The number of counter records the partitions hold. *)
Definition record_count (Partitions : PartitionsResult) (IOCounters : string → IOCountersResult)
  : nat :=
  sum_list ((λ p, size (IOCounters (disk.Device p)).1) <$> Partitions.1).

(** Every series is filed under its own name. *)
Definition registry_named (reg : gmap string MetricGroup) : Prop :=
  ∀ key g, reg !! key = Some g → Name g = key.

(** The value a finite [float64] stands for, when it is an integer. *)
Definition float64_integer (x : float64) : option Z :=
  match x with
  | S754_zero _ => Some 0%Z
  | S754_finite s m e =>
      if bool_decide (0 ≤ e)%Z then Some ((if s then -1 else 1) * Z.pos m * 2 ^ e)%Z
      else if bool_decide (Z.pos m `mod` 2 ^ (- e) = 0)%Z
           then Some ((if s then -1 else 1) * (Z.pos m `div` 2 ^ (- e)))%Z
           else None
  | _ => None
  end.

(** A machine on which both collaborators fail and still return data. *)
Module Flaky.

Definition Partitions : PartitionsResult :=
  ([Example.sda], Some "open /proc/self/mounts: interrupted").

Definition IOCounters (device : string) : IOCountersResult :=
  ({[ "sda" := Example.sda_stat ]}, Some "strconv.ParseUint: value out of range").

End Flaky.

(** * Properties *)

(** ** Strings *)

Section Strings.

Lemma string_app_empty_r (s : string) : s +:+ EmptyString = s.
Proof.
  induction s as [|c s IH]; [reflexivity|].
  change (String c (s +:+ EmptyString) = String c s). by rewrite IH.
Qed.

Lemma string_app_assoc (s t u : string) : (s +:+ t) +:+ u = s +:+ t +:+ u.
Proof.
  induction s as [|c s IH]; [reflexivity|].
  change (String c ((s +:+ t) +:+ u) = String c (s +:+ t +:+ u)). by rewrite IH.
Qed.

Lemma string_app_length (s t : string) : String.length (s +:+ t) = String.length s + String.length t.
Proof.
  induction s as [|c s IH]; [reflexivity|].
  change (S (String.length (s +:+ t)) = S (String.length s) + String.length t).
  rewrite IH. lia.
Qed.

Lemma tag_pair_length (kv : string * string) : 0 < String.length (tag_pair kv).
Proof. unfold tag_pair. rewrite !string_app_length. cbn. lia. Qed.

Lemma Join_cons (sep s : string) (rest : list string) :
  Join (s :: rest) sep = s +:+ foldr (λ t acc, sep +:+ t +:+ acc) EmptyString rest.
Proof.
  revert s. induction rest as [|t rest IH]; intros s.
  - cbn. by rewrite string_app_empty_r.
  - change (Join (s :: t :: rest) sep) with (s +:+ sep +:+ Join (t :: rest) sep).
    by rewrite IH.
Qed.

End Strings.

(** ** The tag loop of [Output] *)

Section TagLoop.

(** Once the accumulator is not empty, every further tag costs one comma. *)
Lemma tag_loop_from (acc : string) (visit : list (string * string)) :
  0 < String.length acc →
  foldl (λ tagStr kv,
           let tagStr := if bool_decide (0 < String.length tagStr) then tagStr +:+ "," else tagStr in
           tagStr +:+ kv.1 +:+ "=" +:+ quote +:+ kv.2 +:+ quote) acc visit
  = acc +:+ foldr (λ t rest, "," +:+ t +:+ rest) EmptyString (tag_pair <$> visit).
Proof.
  revert acc. induction visit as [|kv visit IH]; intros acc Hacc.
  - cbn. by rewrite string_app_empty_r.
  - cbn [foldl]. rewrite bool_decide_eq_true_2 by done.
    rewrite IH.
    + cbn [fmap list_fmap foldr]. fold (tag_pair kv). by rewrite !string_app_assoc.
    + rewrite !string_app_length. cbn. lia.
Qed.

Lemma tagStr_loop_cons (kv : string * string) (visit : list (string * string)) :
  tagStr_loop (kv :: visit) = Join (tag_pair <$> kv :: visit) ",".
Proof.
  unfold tagStr_loop. cbn [foldl]. rewrite bool_decide_eq_false_2 by (cbn; lia).
  change (EmptyString +:+ ?s) with s. fold (tag_pair kv).
  rewrite tag_loop_from by apply tag_pair_length.
  by rewrite fmap_cons, Join_cons.
Qed.

Lemma metric_line_spec (Sprintf_v : float64 → string) name visit value :
  metric_line Sprintf_v name visit value = observation_line Sprintf_v name visit value.
Proof.
  unfold metric_line, observation_line, Println.
  cbn [Join Sprintf Ascii.eqb Bool.eqb orb]. 
  destruct visit as [|kv visit].
  - cbn. rewrite !string_app_empty_r. by rewrite string_app_assoc.
  - rewrite tagStr_loop_cons. cbn [tag_fragment].
    rewrite bool_decide_eq_true_2.
    + rewrite string_app_empty_r. by rewrite !string_app_assoc.
    + rewrite fmap_cons, Join_cons, string_app_length. pose proof (tag_pair_length kv). lia.
Qed.

End TagLoop.

(** ** [Output] *)

Section Rendering.

Variable Sprintf_v : float64 → string.

Lemma Output_with_spec (g : MetricGroup) (visits : list (list (string * string))) :
  (Output_with Sprintf_v g visits).2
  = [help_line (Name g) (Type_ g) (Comment g); type_line (Name g) (Type_ g)]
    ++ zip_with (λ m visit, observation_line Sprintf_v (Name g) visit (Value m)) (Metrics g) visits
    ++ [newline].
Proof.
  unfold Output_with. cbn [snd].
  rewrite (zip_with_ext _ (λ m visit, observation_line Sprintf_v (Name g) visit (Value m))
             (Metrics g) (Metrics g) visits visits); [reflexivity| |done..].
  intros m visit. apply metric_line_spec.
Qed.

Lemma Output_inv (g : MetricGroup) (r : MetricGroup * list string) :
  Output Sprintf_v g r →
  r.1 = g
  ∧ ∃ visits,
      Forall2 (λ m visit, range_order (Tags m) visit) (Metrics g) visits
      ∧ r.2 = [help_line (Name g) (Type_ g) (Comment g); type_line (Name g) (Type_ g)]
              ++ zip_with (λ m visit, observation_line Sprintf_v (Name g) visit (Value m))
                          (Metrics g) visits
              ++ [newline].
Proof.
  intros (visits & Hvisits & ->). split; [reflexivity|].
  exists visits. split; [done|]. apply Output_with_spec.
Qed.

Lemma Output_listed (g : MetricGroup) :
  Output Sprintf_v g (Output_with Sprintf_v g ((λ m, map_to_list (Tags m)) <$> Metrics g)).
Proof.
  exists ((λ m, map_to_list (Tags m)) <$> Metrics g). split; [|reflexivity].
  induction (Metrics g) as [|m ms IH]; constructor; [|exact IH].
  unfold range_order. reflexivity.
Qed.

Lemma Output_is_block (g : MetricGroup) (r : MetricGroup * list string) :
  Output Sprintf_v g r → is_block Sprintf_v (Name g) (Type_ g) r.2.
Proof.
  intros (_ & visits & Hvisits & ->)%Output_inv.
  exists (Comment g), (zip_with (λ m visit, observation_line Sprintf_v (Name g) visit (Value m))
                                (Metrics g) visits).
  split; [reflexivity|].
  apply Forall_forall. intros line (m & visit & -> & _ & _)%elem_of_zip_with. eauto.
Qed.

End Rendering.

Lemma Permutation_short {A : Type} (l k : list A) : l ≡ₚ k → length l ≤ 1 → l = k.
Proof.
  intros Hperm Hlen. destruct l as [|a [|b l]]; [| |cbn in Hlen; lia].
  - by apply Permutation_nil_l in Hperm.
  - by apply Permutation_singleton_l in Hperm.
Qed.

(** Two visits of the same tag-sets list the same pairs. *)
Lemma visits_agree (ms : list Metric) (visits1 visits2 : list (list (string * string))) :
  Forall2 (λ m visit, range_order (Tags m) visit) ms visits1 →
  Forall2 (λ m visit, range_order (Tags m) visit) ms visits2 →
  Forall2 (≡ₚ) visits1 visits2.
Proof.
  intros H1. revert visits2.
  induction H1 as [|m visit1 ms visits1 Hvisit1 _ IH]; intros visits2 H2.
  - inversion H2. constructor.
  - inversion H2 as [|? visit2 ? visits2' Hvisit2 Hrest]; subst.
    constructor; [|by apply IH].
    unfold range_order in *. by rewrite Hvisit1, Hvisit2.
Qed.

(** With at most one tag per observation there is only one visit. *)
Lemma visits_unique (ms : list Metric) (visits1 visits2 : list (list (string * string))) :
  (∀ m, m ∈ ms → size (Tags m) ≤ 1) →
  Forall2 (λ m visit, range_order (Tags m) visit) ms visits1 →
  Forall2 (λ m visit, range_order (Tags m) visit) ms visits2 →
  visits1 = visits2.
Proof.
  intros Hsmall H1. revert visits2.
  induction H1 as [|m visit1 ms visits1 Hvisit1 _ IH]; intros visits2 H2.
  - by inversion H2.
  - inversion H2 as [|? visit2 ? visits2' Hvisit2 Hrest]; subst. f_equal.
    + apply Permutation_short.
      * unfold range_order in *. by rewrite Hvisit1, Hvisit2.
      * unfold range_order in Hvisit1. rewrite Hvisit1, length_map_to_list.
        apply Hsmall, list_elem_of_here.
    + apply IH; [|done]. intros m' Hm'. by apply Hsmall, list_elem_of_further.
Qed.

(** ** The registry along the collection pass *)

(** Membership in a list written out: try each position. *)
Ltac pick := first [apply list_elem_of_here | apply list_elem_of_further; pick].

Section Registry.

Lemma run_app (s1 s2 : list Step) (st : Run) :
  run (s1 ++ s2) st = run s1 st ≫= run s2.
Proof.
  revert st. induction s1 as [|s s1 IH]; intros st; [reflexivity|].
  cbn [app run]. destruct (s st) as [st'|]; [apply IH|reflexivity].
Qed.

Lemma record_body_fields (p : disk.PartitionStat) (v : disk.IOCountersStat) :
  record_body p v
  = (λ kf : string * (disk.IOCountersStat → Z),
       AddMetric_at kf.1 (record_tags p v) (float64_of_uint64 (kf.2 v))) <$> fields.
Proof. reflexivity. Qed.

Lemma series_table_keys : series_table.*1 = fields.*1.
Proof. reflexivity. Qed.

Lemma fields_NoDup : NoDup fields.*1.
Proof. apply (bool_decide_unpack _). by vm_compute. Qed.

Lemma series_table_NoDup : NoDup series_table.*1.
Proof. rewrite series_table_keys. apply fields_NoDup. Qed.

Lemma registry_after_nil : registry_after [] = metricGroups.
Proof. unfold registry_after. by rewrite <- list_to_map_fmap. Qed.

(** Every series of [fields] is in the registry literal, under its own name. *)
Lemma fields_series (key : string) (field : disk.IOCountersStat → Z) :
  (key, field) ∈ fields →
  ∃ g0, (key, (g0, field)) ∈ series_table ∧ Name g0 = key ∧ (key, Type_ g0) ∈ series_catalog.
Proof.
  unfold fields. intros Hin.
  repeat (apply elem_of_cons in Hin as [[= -> ->]|Hin];
          [eexists; split; [|split];
           [unfold series_table, metricGroups_literal, fields; cbn [zip_with fst snd]; pick
           |reflexivity
           |cbn [Type_]; unfold series_catalog; pick] |]).
  by apply elem_of_nil in Hin.
Qed.

Lemma lookup_registry_after recs key g0 field :
  (key, (g0, field)) ∈ series_table →
  registry_after recs !! key = Some (series_after recs (g0, field)).
Proof.
  intros Hin. unfold registry_after. rewrite lookup_fmap.
  by rewrite (elem_of_list_to_map_1 _ _ _ series_table_NoDup Hin).
Qed.

Lemma lookup_registry_after_None recs key :
  key ∉ fields.*1 → registry_after recs !! key = None.
Proof.
  intros Hin. unfold registry_after. rewrite lookup_fmap.
  rewrite not_elem_of_list_to_map_1; [done|]. by rewrite series_table_keys.
Qed.

Lemma lookup_registry_after_inv recs key g :
  registry_after recs !! key = Some g →
  ∃ g0 field, (key, (g0, field)) ∈ series_table ∧ g = series_after recs (g0, field).
Proof.
  unfold registry_after. rewrite lookup_fmap. intros Hg.
  destruct (list_to_map series_table !! key) as [[g0 field]|] eqn:Hkey; [|done].
  apply elem_of_list_to_map_2 in Hkey. injection Hg as <-. eauto.
Qed.

Lemma series_after_snoc recs pv gf :
  series_after (recs ++ [pv]) gf
  = AddMetric (series_after recs gf) (record_tags pv.1 pv.2) (float64_of_uint64 (gf.2 pv.2)).
Proof. unfold series_after, AddMetric. cbn. by rewrite fmap_app. Qed.

Lemma AddMetric_at_alter key tags value out (reg : gmap string MetricGroup) :
  is_Some (reg !! key) →
  AddMetric_at key tags value {| stdout := out; groups := reg |}
  = Some {| stdout := out; groups := alter (λ g, AddMetric g tags value) key reg |}.
Proof.
  intros [g Hg]. unfold AddMetric_at. cbn. rewrite Hg. cbn.
  by rewrite (alter_alt_Some _ _ _ _ Hg).
Qed.

(** Appends to present series never panic; together they alter the registry. *)
Lemma run_appends (kfs : list (string * (disk.IOCountersStat → Z))) p v out
    (reg : gmap string MetricGroup) :
  (∀ key, key ∈ kfs.*1 → is_Some (reg !! key)) →
  run ((λ kf : string * (disk.IOCountersStat → Z),
          AddMetric_at kf.1 (record_tags p v) (float64_of_uint64 (kf.2 v))) <$> kfs)
      {| stdout := out; groups := reg |}
  = Some {| stdout := out;
            groups := foldl (λ r kf, alter (λ g, AddMetric g (record_tags p v)
                                                   (float64_of_uint64 (kf.2 v))) kf.1 r)
                            reg kfs |}.
Proof.
  revert reg. induction kfs as [|kf kfs IH]; intros reg Hreg; [reflexivity|].
  cbn [fmap list_fmap run foldl]. rewrite AddMetric_at_alter.
  - cbn. apply IH. intros key Hkey. rewrite lookup_alter. case_decide.
    + subst. apply fmap_is_Some, Hreg. apply list_elem_of_here.
    + apply Hreg. by apply list_elem_of_further.
  - apply Hreg. apply list_elem_of_here.
Qed.

Lemma lookup_appends_other (kfs : list (string * (disk.IOCountersStat → Z)))
    (h : (disk.IOCountersStat → Z) → MetricGroup → MetricGroup)
    (reg : gmap string MetricGroup) key :
  key ∉ kfs.*1 →
  foldl (λ r kf, alter (h kf.2) kf.1 r) reg kfs !! key = reg !! key.
Proof.
  revert reg. induction kfs as [|kf kfs IH]; intros reg Hkey; [reflexivity|].
  cbn [fmap list_fmap] in Hkey. apply not_elem_of_cons in Hkey as [Hne Hkey].
  cbn [foldl]. rewrite IH by done. by apply lookup_alter_ne.
Qed.

Lemma lookup_appends (kfs : list (string * (disk.IOCountersStat → Z)))
    (h : (disk.IOCountersStat → Z) → MetricGroup → MetricGroup)
    (reg : gmap string MetricGroup) key field :
  NoDup kfs.*1 → (key, field) ∈ kfs →
  foldl (λ r kf, alter (h kf.2) kf.1 r) reg kfs !! key = h field <$> reg !! key.
Proof.
  revert reg. induction kfs as [|kf kfs IH]; intros reg Hnodup Hin.
  { by apply elem_of_nil in Hin. }
  cbn [fmap list_fmap] in Hnodup. apply NoDup_cons in Hnodup as [Hfresh Hnodup].
  cbn [foldl]. apply elem_of_cons in Hin as [<-|Hin].
  - rewrite lookup_appends_other by done. apply lookup_alter_eq.
  - rewrite IH by done. rewrite lookup_alter_ne; [done|].
    intros Heq. apply Hfresh. rewrite Heq. apply list_elem_of_fmap. by exists (key, field).
Qed.

Lemma run_record_body (p : disk.PartitionStat) (v : disk.IOCountersStat)
    (out : list string) (recs : list (disk.PartitionStat * disk.IOCountersStat)) :
  run (record_body p v) {| stdout := out; groups := registry_after recs |}
  = Some {| stdout := out; groups := registry_after (recs ++ [(p, v)]) |}.
Proof.
  rewrite record_body_fields, run_appends.
  - do 2 f_equal. apply map_eq. intros key.
    destruct (decide (key ∈ fields.*1)) as [Hkey|Hkey].
    + apply list_elem_of_fmap in Hkey as ([key' field] & -> & Hin). cbn [fst].
      rewrite (lookup_appends fields
                 (λ f g, AddMetric g (record_tags p v) (float64_of_uint64 (f v)))
                 _ _ _ fields_NoDup Hin).
      destruct (fields_series _ _ Hin) as (g0 & Hg0 & _).
      rewrite !(lookup_registry_after _ _ _ _ Hg0). cbn [fmap option_fmap option_map].
      by rewrite series_after_snoc.
    + rewrite (lookup_appends_other fields
                 (λ f g, AddMetric g (record_tags p v) (float64_of_uint64 (f v)))) by done.
      by rewrite !lookup_registry_after_None.
  - intros key ([key' field] & -> & Hin)%list_elem_of_fmap.
    destruct (fields_series _ _ Hin) as (g0 & Hg0 & _).
    rewrite (lookup_registry_after _ _ _ _ Hg0). eauto.
Qed.

Lemma registry_after_equal_counts recs : equal_counts (registry_after recs).
Proof.
  intros k1 k2 g1 g2 (? & ? & _ & ->)%lookup_registry_after_inv
                     (? & ? & _ & ->)%lookup_registry_after_inv.
  cbn. by rewrite !length_fmap.
Qed.

Lemma registry_after_list recs :
  map_to_list (registry_after recs) ≡ₚ prod_map id (series_after recs) <$> series_table.
Proof.
  unfold registry_after. rewrite map_to_list_fmap.
  apply fmap_Permutation, map_to_list_to_map, series_table_NoDup.
Qed.

End Registry.

(** ** [executeCheck]: the collection pass, then the render loop *)

Section Execution.

Variable Sprintf_v : float64 → string.
Variable Partitions : PartitionsResult.
Variable IOCounters : string → IOCountersResult.

Lemma partitions_diagnostic (err : error) :
  is_diagnostic (Sprintf "Failed to get partitions, error: %v" [err]).
Proof. exists err. left. rewrite <- (string_app_empty_r err) at 2. reflexivity. Qed.

Lemma counters_diagnostic (err : error) :
  is_diagnostic (Sprintf "Failed to get IO counters, error: %v" [err]).
Proof. exists err. right. rewrite <- (string_app_empty_r err) at 2. reflexivity. Qed.

Lemma whole_records_run stmts recs :
  whole_records stmts recs →
  ∀ out recs0, ∃ diag,
    Forall is_diagnostic diag
    ∧ run stmts {| stdout := out; groups := registry_after recs0 |}
      = Some {| stdout := out ++ diag; groups := registry_after (recs0 ++ recs) |}.
Proof.
  induction 1 as [|stmts recs format args Hdiag _ IH|stmts recs p v _ IH]; intros out recs0.
  - exists []. split; [constructor|]. by rewrite !app_nil_r.
  - destruct (IH out recs0) as (diag & Hall & Hrun).
    exists (diag ++ [Sprintf format args]). split.
    + apply Forall_app. split; [done|]. by constructor.
    + rewrite run_app, Hrun. cbn. by rewrite <- (assoc_L (++)).
  - destruct (IH out recs0) as (diag & Hall & Hrun).
    exists diag. split; [done|].
    rewrite run_app, Hrun. cbn [mbind option_bind].
    rewrite run_record_body. by rewrite <- (assoc_L (++)).
Qed.

Lemma whole_records_app stmts1 recs1 stmts2 recs2 :
  whole_records stmts1 recs1 → whole_records stmts2 recs2 →
  whole_records (stmts1 ++ stmts2) (recs1 ++ recs2).
Proof.
  intros H1. induction 1 as [|stmts recs format args Hdiag _ IH|stmts recs p v _ IH].
  - by rewrite !app_nil_r.
  - rewrite (assoc_L (++)). by constructor.
  - rewrite !(assoc_L (++)). by constructor.
Qed.

Lemma whole_record_body p v : whole_records (record_body p v) [(p, v)].
Proof. apply (whole_record [] [] p v). constructor. Qed.

Lemma whole_partition_body p (visit : list (string * disk.IOCountersStat)) :
  whole_records (partition_body IOCounters p visit)
                ((λ kv : string * disk.IOCountersStat, (p, kv.2)) <$> visit).
Proof.
  unfold partition_body.
  apply (whole_records_app _ [] _ _).
  - destruct (IOCounters (disk.Device p)).2 as [err|]; [|constructor].
    apply (whole_print [] []); [apply counters_diagnostic|constructor].
  - induction visit as [|kv visit IH]; [constructor|].
    cbn [map concat fmap list_fmap].
    apply (whole_records_app _ [_] _ _); [apply whole_record_body|exact IH].
Qed.

Lemma whole_collection (visits : list (list (string * disk.IOCountersStat))) :
  whole_records (collection Partitions IOCounters visits) (records Partitions.1 visits).
Proof.
  unfold collection, records.
  apply (whole_records_app _ [] _ _).
  - destruct Partitions.2 as [err|]; [|constructor].
    apply (whole_print [] []); [apply partitions_diagnostic|constructor].
  - generalize Partitions.1 as parts. intros parts. revert visits.
    induction parts as [|p parts IH]; intros [|visit visits]; try constructor.
    cbn [zip_with concat].
    apply whole_records_app; [apply whole_partition_body|apply IH].
Qed.

Lemma run_collection (visits : list (list (string * disk.IOCountersStat))) :
  ∃ diag,
    Forall is_diagnostic diag
    ∧ run (collection Partitions IOCounters visits) initial
      = Some {| stdout := diag; groups := registry_after (records Partitions.1 visits) |}.
Proof.
  destruct (whole_records_run _ _ (whole_collection visits) [] []) as (diag & Hall & Hrun).
  exists diag. split; [done|]. unfold initial. by rewrite <- registry_after_nil.
Qed.

(** What a run of [executeCheck] is made of. *)
Lemma executeCheck_inv res :
  executeCheck Sprintf_v Partitions IOCounters res →
  ∃ visits diag order rs,
    Forall2 (λ p visit, range_order (IOCounters (disk.Device p)).1 visit) Partitions.1 visits
    ∧ Forall is_diagnostic diag
    ∧ order ≡ₚ prod_map id (series_after (records Partitions.1 visits)) <$> series_table
    ∧ Forall2 (λ kv r, Output Sprintf_v kv.2 r) order rs
    ∧ res = Some (diag ++ concat rs.*2, (sensu.CheckStateOK, None)).
Proof.
  intros (visits & Hvisits & Hrun).
  destruct (run_collection visits) as (diag & Hdiag & Hcoll).
  rewrite Hcoll in Hrun. destruct Hrun as (order & rs & Horder & Hrs & ->).
  exists visits, diag, order, rs. split_and!; try done.
  unfold range_order in Horder. cbn [groups] in Horder.
  by rewrite Horder, registry_after_list.
Qed.

Lemma executeCheck_listed_run :
  executeCheck Sprintf_v Partitions IOCounters
    (executeCheck_listed Sprintf_v Partitions IOCounters).
Proof.
  unfold executeCheck, executeCheck_listed.
  exists ((λ p, map_to_list (IOCounters (disk.Device p)).1) <$> Partitions.1). split.
  - induction Partitions.1 as [|p parts IH]; constructor; [|exact IH].
    unfold range_order. reflexivity.
  - destruct (run_collection ((λ p, map_to_list (IOCounters (disk.Device p)).1) <$> Partitions.1))
      as (diag & _ & ->).
    cbn [mbind option_bind].
    eexists _, _. split; [unfold range_order; reflexivity|]. split; [|reflexivity].
    induction (map_to_list _) as [|kv l IH]; constructor; [|exact IH].
    apply Output_listed.
Qed.

End Execution.

(** * The claims about a single series *)

(** Visits given in full are checked entry by entry. *)
Ltac visits_ok :=
  repeat match goal with
         | |- Forall2 _ _ _ => constructor
         | |- range_order _ _ =>
             unfold range_order; vm_compute; first [reflexivity | apply perm_swap]
         end.

(** C2. Rendering a series prints the HELP line [# HELP <name> [<type>] <help>],
    then the TYPE line [# TYPE <name> <type>], then one line
    [<name><tag-fragment> <value>] per observation in the order the
    observations were appended, and last one blank line; the blank line is
    printed also when the series has no observation. *)
Theorem Output_layout (Sprintf_v : float64 → string) (g : MetricGroup)
    (r : MetricGroup * list string) :
  Output Sprintf_v g r →
  (∃ visits,
      Forall2 (λ m visit, range_order (Tags m) visit) (Metrics g) visits
      ∧ r.2 = [ "# HELP " +:+ Name g +:+ " [" +:+ Type_ g +:+ "] " +:+ Comment g +:+ newline;
                "# TYPE " +:+ Name g +:+ " " +:+ Type_ g +:+ newline ]
              ++ zip_with (λ m visit, Name g +:+ tag_fragment visit +:+ " "
                                      +:+ Sprintf_v (Value m) +:+ newline)
                          (Metrics g) visits
              ++ [ newline ])
  ∧ length r.2 = length (Metrics g) + 3
  ∧ (Metrics g = [] →
     r.2 = [ "# HELP " +:+ Name g +:+ " [" +:+ Type_ g +:+ "] " +:+ Comment g +:+ newline;
             "# TYPE " +:+ Name g +:+ " " +:+ Type_ g +:+ newline;
             newline ]).
Proof.
  intros (_ & visits & Hvisits & Hr)%Output_inv. split_and!.
  - exists visits. by split.
  - rewrite Hr. cbn [app length]. rewrite length_app, length_zip_with.
    apply Forall2_length in Hvisits. cbn [length]. lia.
  - intros Hnil. rewrite Hr, Hnil. reflexivity.
Qed.

Lemma Output_layout_witness :
  Output Example.format_plain Example.read_bytes
         (Output_with Example.format_plain Example.read_bytes [Example.device_first])
  ∧ length (Output_with Example.format_plain Example.read_bytes [Example.device_first]).2
    = length (Metrics Example.read_bytes) + 3.
Proof.
  assert (Output Example.format_plain Example.read_bytes
            (Output_with Example.format_plain Example.read_bytes [Example.device_first]))
    as Hrun.
  { exists [Example.device_first]. split; [|reflexivity].
    visits_ok. }
  split; [exact Hrun|].
  exact (proj1 (proj2 (Output_layout _ _ _ Hrun))).
Defined.

(** C4. The tag fragment of an observation line: an observation without tags
    prints no braces and no fragment; an observation with tags prints
    [{k1="v1",k2="v2",...}], each pair as [key="value"], one comma between
    consecutive pairs, none before the first or after the last. *)
Theorem tag_fragment_shape (Sprintf_v : float64 → string) (name : string)
    (tags : gmap string string) (visit : list (string * string)) (value : float64) :
  range_order tags visit →
  (tags = ∅ →
   metric_line Sprintf_v name visit value = name +:+ " " +:+ Sprintf_v value +:+ newline)
  ∧ (tags ≠ ∅ →
     ∃ kv rest,
       visit = kv :: rest
       ∧ metric_line Sprintf_v name visit value
         = name +:+ "{"
           +:+ (kv.1 +:+ "=" +:+ quote +:+ kv.2 +:+ quote)
           +:+ foldr (λ kv' acc, "," +:+ (kv'.1 +:+ "=" +:+ quote +:+ kv'.2 +:+ quote) +:+ acc)
                     EmptyString rest
           +:+ "}" +:+ " " +:+ Sprintf_v value +:+ newline).
Proof.
  unfold range_order. intros Hvisit. split.
  - intros ->. rewrite map_to_list_empty in Hvisit.
    apply Permutation_nil_r in Hvisit as ->. by rewrite metric_line_spec.
  - intros Htags. destruct visit as [|kv rest].
    { apply Permutation_nil_l in Hvisit. symmetry in Hvisit.
      by apply map_to_list_empty_iff in Hvisit. }
    exists kv, rest. split; [reflexivity|].
    rewrite metric_line_spec. unfold observation_line, tag_fragment.
    rewrite fmap_cons, Join_cons, foldr_fmap. unfold tag_pair.
    by rewrite !string_app_assoc.
Qed.

Lemma tag_fragment_shape_witness :
  range_order (record_tags Example.sda Example.sda_stat) Example.device_first
  ∧ metric_line Example.format_plain "disk_read_bytes" Example.device_first
                (float64_of_uint64 1024)
    = "disk_read_bytes{device=" +:+ quote +:+ "sda" +:+ quote +:+ ",mountpoint=" +:+ quote
      +:+ "/" +:+ quote +:+ "} 1024" +:+ newline.
Proof.
  assert (range_order (record_tags Example.sda Example.sda_stat) Example.device_first) as Hvisit.
  { vm_compute. apply perm_swap. }
  split; [exact Hvisit|].
  destruct (proj2 (tag_fragment_shape Example.format_plain "disk_read_bytes" _ _
                     (float64_of_uint64 1024) Hvisit)) as (kv & rest & Heq & ->).
  - apply insert_non_empty.
  - injection Heq as <- <-. reflexivity.
Defined.

(** C7, the claim as stated fails: the series [Example.read_bytes] has one
    observation with the tags [device] and [mountpoint]; one rendering
    visits [device] first, another [mountpoint] first, and the texts differ. *)
Lemma render_twice_differs :
  Output Example.format_plain Example.read_bytes
         (Output_with Example.format_plain Example.read_bytes [Example.device_first])
  ∧ Output Example.format_plain Example.read_bytes
           (Output_with Example.format_plain Example.read_bytes [Example.mountpoint_first])
  ∧ (Output_with Example.format_plain Example.read_bytes [Example.device_first]).2
    ≠ (Output_with Example.format_plain Example.read_bytes [Example.mountpoint_first]).2.
Proof.
  split_and!.
  - exists [Example.device_first]. split; [|reflexivity].
    visits_ok.
  - exists [Example.mountpoint_first]. split; [|reflexivity].
    visits_ok.
  - vm_compute. discriminate.
Qed.

(** C7, amended. Rendering never changes the series.  Two renderings of a
    series print the same HELP line, TYPE line and blank line and, observation
    by observation, a line with the same name and value whose tag fragment
    holds the same pairs, possibly in another order; the two texts are equal
    byte for byte when no observation has more than one tag. *)
Theorem render_twice (Sprintf_v : float64 → string) (g : MetricGroup)
    (r1 r2 : MetricGroup * list string) :
  Output Sprintf_v g r1 → Output Sprintf_v r1.1 r2 →
  r1.1 = g ∧ r2.1 = g
  ∧ (∃ visits1 visits2,
        Forall2 (≡ₚ) visits1 visits2
        ∧ length visits1 = length (Metrics g)
        ∧ r1.2 = [help_line (Name g) (Type_ g) (Comment g); type_line (Name g) (Type_ g)]
                 ++ zip_with (λ m visit, observation_line Sprintf_v (Name g) visit (Value m))
                             (Metrics g) visits1
                 ++ [newline]
        ∧ r2.2 = [help_line (Name g) (Type_ g) (Comment g); type_line (Name g) (Type_ g)]
                 ++ zip_with (λ m visit, observation_line Sprintf_v (Name g) visit (Value m))
                             (Metrics g) visits2
                 ++ [newline])
  ∧ ((∀ m, m ∈ Metrics g → size (Tags m) ≤ 1) → r1.2 = r2.2).
Proof.
  intros (Hg1 & visits1 & Hvisits1 & Hr1)%Output_inv. rewrite Hg1.
  intros (Hg2 & visits2 & Hvisits2 & Hr2)%Output_inv.
  split_and!; [done..| |].
  - exists visits1, visits2. split_and!; try done.
    + by eapply visits_agree.
    + symmetry. by eapply Forall2_length.
  - intros Hsmall. rewrite Hr1, Hr2.
    by rewrite (visits_unique _ _ _ Hsmall Hvisits1 Hvisits2).
Qed.

Lemma render_twice_witness :
  Output Example.format_plain Example.read_bytes
         (Output_with Example.format_plain Example.read_bytes [Example.device_first])
  ∧ Output Example.format_plain Example.read_bytes
           (Output_with Example.format_plain Example.read_bytes [Example.mountpoint_first])
  ∧ (Output_with Example.format_plain Example.read_bytes [Example.mountpoint_first]).1
    = Example.read_bytes.
Proof.
  assert (Output Example.format_plain Example.read_bytes
            (Output_with Example.format_plain Example.read_bytes [Example.device_first]))
    as Hfirst.
  { exists [Example.device_first]. split; [|reflexivity].
    visits_ok. }
  assert (Output Example.format_plain Example.read_bytes
            (Output_with Example.format_plain Example.read_bytes [Example.mountpoint_first]))
    as Hsecond.
  { exists [Example.mountpoint_first]. split; [|reflexivity].
    visits_ok. }
  split_and!; [exact Hfirst|exact Hsecond|].
  exact (proj1 (proj2 (render_twice _ _ _ _ Hfirst Hsecond))).
Defined.

(** C8. [AddMetric] neither deduplicates nor validates: each call appends
    exactly one observation, whatever the tags and the value (a NaN and a
    negative number are values like any other); after two calls with the
    same tags and value the rendering ends with two lines for them, and the
    value each line prints is the formatter applied to the value passed. *)
Theorem AddMetric_appends (Sprintf_v : float64 → string) (g : MetricGroup)
    (tags : gmap string string) (value : float64) (r : MetricGroup * list string) :
  Output Sprintf_v (AddMetric (AddMetric g tags value) tags value) r →
  Metrics (AddMetric g tags value) = Metrics g ++ [ {| Tags := tags; Value := value |} ]
  ∧ length (Metrics (AddMetric g tags value)) = S (length (Metrics g))
  ∧ ∃ visits visit1 visit2,
      Forall2 (λ m visit, range_order (Tags m) visit) (Metrics g) visits
      ∧ range_order tags visit1 ∧ range_order tags visit2
      ∧ r.2 = [help_line (Name g) (Type_ g) (Comment g); type_line (Name g) (Type_ g)]
              ++ zip_with (λ m visit, observation_line Sprintf_v (Name g) visit (Value m))
                          (Metrics g) visits
              ++ [ Name g +:+ tag_fragment visit1 +:+ " " +:+ Sprintf_v value +:+ newline;
                   Name g +:+ tag_fragment visit2 +:+ " " +:+ Sprintf_v value +:+ newline ]
              ++ [newline].
Proof.
  intros (_ & visits & Hvisits & Hr)%Output_inv. split_and!.
  - reflexivity.
  - cbn. rewrite length_app. cbn. lia.
  - cbn [AddMetric Metrics Name Type_ Comment] in Hvisits, Hr.
    rewrite <- (assoc_L (++)) in Hvisits, Hr.
    apply Forall2_app_inv_l in Hvisits as (visits0 & last & Hvisits0 & Hlast & ->).
    inversion Hlast as [|? visit1 ? ? Hvisit1 Hlast']. subst.
    inversion Hlast' as [|? visit2 ? ? Hvisit2 Hnil]. subst.
    inversion Hnil. subst.
    exists visits0, visit1, visit2. split_and!; try done.
    rewrite Hr, zip_with_app by (by eapply Forall2_length).
    by rewrite <- !(assoc_L (++)).
Qed.

Lemma AddMetric_appends_witness :
  Output Example.format_plain
         (AddMetric (AddMetric Example.read_bytes ∅ S754_nan) ∅ S754_nan)
         (Output_with Example.format_plain
            (AddMetric (AddMetric Example.read_bytes ∅ S754_nan) ∅ S754_nan)
            [Example.device_first; []; []])
  ∧ length (Metrics (AddMetric Example.read_bytes ∅ S754_nan)) = 2.
Proof.
  assert (Output Example.format_plain
            (AddMetric (AddMetric Example.read_bytes ∅ S754_nan) ∅ S754_nan)
            (Output_with Example.format_plain
               (AddMetric (AddMetric Example.read_bytes ∅ S754_nan) ∅ S754_nan)
               [Example.device_first; []; []])) as Hrun.
  { exists [Example.device_first; []; []]. split; [|reflexivity].
    visits_ok. }
  split; [exact Hrun|].
  exact (proj1 (proj2 (AddMetric_appends _ _ _ _ _ Hrun))).
Defined.

(** ** What a run of [executeCheck] prints *)

Section Report.

Variable Sprintf_v : float64 → string.
Variable Partitions : PartitionsResult.
Variable IOCounters : string → IOCountersResult.

Lemma concat_split (block : list string) (blocks : list (list string)) :
  block ∈ blocks → ∃ before after, concat blocks = before ++ block ++ after.
Proof.
  intros (l1 & l2 & ->)%list_elem_of_split.
  exists (concat l1), (concat l2). by rewrite concat_app, concat_cons.
Qed.

Lemma elem_of_concat_blocks (line : string) (block : list string) (blocks : list (list string)) :
  line ∈ block → block ∈ blocks → line ∈ concat blocks.
Proof.
  intros Hline (before & after & ->)%concat_split.
  rewrite !elem_of_app. auto.
Qed.

(** Every record that a partition's counters hold is processed. *)
Lemma elem_of_records parts (visits : list (list (string * disk.IOCountersStat))) p k v :
  Forall2 (λ p visit, range_order (IOCounters (disk.Device p)).1 visit) parts visits →
  p ∈ parts → (IOCounters (disk.Device p)).1 !! k = Some v →
  (p, v) ∈ records parts visits.
Proof.
  intros Hvisits Hp Hv. unfold records.
  induction Hvisits as [|p' visit parts visits Hvisit _ IH]; [by apply elem_of_nil in Hp|].
  cbn [zip_with concat]. apply elem_of_app.
  apply elem_of_cons in Hp as [<-|Hp]; [left|right; by apply IH].
  apply list_elem_of_fmap. exists (k, v). split; [reflexivity|].
  unfold range_order in Hvisit. rewrite Hvisit. by apply elem_of_map_to_list.
Qed.

(** The render loop prints every series of the registry. *)
Lemma series_rendered recs (order : list (string * MetricGroup))
    (rs : list (MetricGroup * list string)) key g0 field :
  order ≡ₚ prod_map id (series_after recs) <$> series_table →
  Forall2 (λ kv r, Output Sprintf_v kv.2 r) order rs →
  (key, (g0, field)) ∈ series_table →
  ∃ r, r ∈ rs ∧ Output Sprintf_v (series_after recs (g0, field)) r.
Proof.
  intros Horder Hrs Hin.
  assert ((key, series_after recs (g0, field)) ∈ order) as Hkv.
  { rewrite Horder. apply list_elem_of_fmap. by exists (key, (g0, field)). }
  apply list_elem_of_lookup in Hkv as [i Hi].
  destruct (Forall2_lookup_l _ _ _ _ _ Hrs Hi) as (r & Hr & Hout).
  exists r. split; [|exact Hout]. by eapply list_elem_of_lookup_2.
Qed.

(** An observation of a rendered series has its line in the text. *)
Lemma observation_rendered (g : MetricGroup) (r : MetricGroup * list string) (m : Metric) :
  Output Sprintf_v g r → m ∈ Metrics g →
  ∃ visit, range_order (Tags m) visit
           ∧ observation_line Sprintf_v (Name g) visit (Value m) ∈ r.2.
Proof.
  intros (_ & visits & Hvisits & ->)%Output_inv [n Hn]%list_elem_of_lookup.
  destruct (Forall2_lookup_l _ _ _ _ _ Hvisits Hn) as (visit & Hvisit & Horder).
  exists visit. split; [exact Horder|].
  apply elem_of_app. right. apply elem_of_app. left.
  apply list_elem_of_lookup. exists n. apply lookup_zip_with_Some. eauto.
Qed.

Lemma executeCheck_blocks res :
  executeCheck Sprintf_v Partitions IOCounters res →
  ∃ diag blocks heads,
    res = Some (diag ++ concat blocks, (sensu.CheckStateOK, None))
    ∧ Forall is_diagnostic diag
    ∧ length blocks = 11
    ∧ heads ≡ₚ series_catalog
    ∧ Forall2 (λ head block, is_block Sprintf_v head.1 head.2 block) heads blocks.
Proof.
  intros (visits & diag & order & rs & _ & Hdiag & Horder & Hrs & ->)%executeCheck_inv.
  exists diag, rs.*2, ((λ kv : string * MetricGroup, (Name kv.2, Type_ kv.2)) <$> order).
  split_and!; [reflexivity|exact Hdiag| | |].
  - rewrite length_fmap, <- (Forall2_length _ _ _ Hrs), Horder. reflexivity.
  - rewrite Horder. reflexivity.
  - apply Forall2_fmap. eapply Forall2_impl; [exact Hrs|].
    intros kv r Hout. by apply Output_is_block.
Qed.

Lemma executeCheck_observations res :
  executeCheck Sprintf_v Partitions IOCounters res →
  ∃ out,
    res = Some (out, (sensu.CheckStateOK, None))
    ∧ ∀ p k v key field,
        p ∈ Partitions.1 → (IOCounters (disk.Device p)).1 !! k = Some v →
        (key, field) ∈ fields →
        ∃ visit, range_order (record_tags p v) visit
                 ∧ observation_line Sprintf_v key visit (float64_of_uint64 (field v)) ∈ out.
Proof.
  intros (visits & diag & order & rs & Hvisits & _ & Horder & Hrs & ->)%executeCheck_inv.
  eexists. split; [reflexivity|].
  intros p k v key field Hp Hv Hfield.
  destruct (fields_series _ _ Hfield) as (g0 & Hg0 & Hname & _).
  destruct (series_rendered _ _ _ _ _ _ Horder Hrs Hg0) as (r & Hr & Hout).
  destruct (observation_rendered _ r (observation field (p, v)) Hout) as (visit & Hvisit & Hline).
  { cbn. apply list_elem_of_fmap. exists (p, v). split; [reflexivity|].
    by eapply elem_of_records. }
  exists visit. split; [exact Hvisit|].
  cbn in Hline. rewrite Hname in Hline.
  apply elem_of_app. right. eapply elem_of_concat_blocks; [exact Hline|].
  apply list_elem_of_fmap. by exists r.
Qed.

End Report.

Lemma Permutation_pair {A : Type} (a b : A) (l : list A) :
  l ≡ₚ [a; b] → l = [a; b] ∨ l = [b; a].
Proof.
  intros Hperm. pose proof (Permutation_length Hperm) as Hlen.
  destruct l as [|x [|y [|z l]]]; try discriminate Hlen.
  assert (x ∈ [a; b]) as Hx by (rewrite <- Hperm; apply list_elem_of_here).
  apply elem_of_cons in Hx as [->|Hx].
  - apply Permutation_cons_inv, Permutation_singleton_inj in Hperm as ->. by left.
  - apply list_elem_of_singleton in Hx as ->.
    rewrite (perm_swap b a []) in Hperm.
    apply Permutation_cons_inv, Permutation_singleton_inj in Hperm as ->. by right.
Qed.

(** * The claims about [executeCheck] *)

(** C1. Whatever the collaborators return (an enumeration that failed, no
    device at all), what [executeCheck] writes is its diagnostics followed by
    exactly 11 HELP/TYPE blocks, one per series of the catalog, with the
    names and types of the catalog, in some order. *)
Theorem registry_rendering_complete (Sprintf_v : float64 → string)
    (Partitions : PartitionsResult) (IOCounters : string → IOCountersResult)
    (res : option (list string * (Z * option error))) :
  executeCheck Sprintf_v Partitions IOCounters res →
  ∃ diag blocks heads,
    res = Some (diag ++ concat blocks, (sensu.CheckStateOK, None))
    ∧ Forall is_diagnostic diag
    ∧ length blocks = 11
    ∧ heads ≡ₚ series_catalog
    ∧ Forall2 (λ head block, is_block Sprintf_v head.1 head.2 block) heads blocks.
Proof. apply executeCheck_blocks. Qed.

Lemma registry_rendering_complete_witness :
  executeCheck Example.format_plain ([], Some "permission denied") Example.IOCounters
    (executeCheck_listed Example.format_plain ([], Some "permission denied") Example.IOCounters)
  ∧ ∃ diag blocks heads,
      executeCheck_listed Example.format_plain ([], Some "permission denied") Example.IOCounters
      = Some (diag ++ concat blocks, (sensu.CheckStateOK, None))
      ∧ Forall is_diagnostic diag
      ∧ length blocks = 11
      ∧ heads ≡ₚ series_catalog
      ∧ Forall2 (λ head block, is_block Example.format_plain head.1 head.2 block) heads blocks.
Proof.
  split; [apply executeCheck_listed_run|].
  apply (registry_rendering_complete Example.format_plain ([], Some "permission denied")
           Example.IOCounters).
  apply executeCheck_listed_run.
Defined.

(** The diagnostics do not end their line: when the enumeration fails the
    byte stream starts with the diagnostic, and the first HELP line follows
    it on the same line. *)
Remark diagnostic_joins_first_header :
  ∃ out rest,
    executeCheck_listed Example.format_plain ([], Some "permission denied") Example.IOCounters
    = Some (out, (sensu.CheckStateOK, None))
    ∧ foldr String.append EmptyString out
      = "Failed to get partitions, error: permission denied# HELP " +:+ rest.
Proof. eexists _, _. split; vm_compute; reflexivity. Qed.

(** C3. One partition mounted at [/] whose counters hold one record, named
    [sda], with ReadBytes = 1024, WriteBytes = 2048 and every other counter 0:
    the [disk_read_bytes] block is its two header lines, the line
    [disk_read_bytes{device="sda",mountpoint="/"} 1024] with the two tags in
    either order, and the blank line; the value printed is the formatter's
    rendering of 1024. *)
Theorem end_to_end_example (Sprintf_v : float64 → string)
    (device key : string) (failure : option error)
    (IOCounters : string → IOCountersResult)
    (res : option (list string * (Z * option error))) :
  (IOCounters device).1 = {[ key := Example.sda_stat ]} →
  Sprintf_v (float64_of_uint64 1024) = "1024" →
  executeCheck Sprintf_v
    ([ {| disk.Device := device; disk.Mountpoint := "/" |} ], failure) IOCounters res →
  ∃ before line after,
    res = Some (before
                ++ [ help_line "disk_read_bytes" "COUNTER"
                       "These values count the number of bytes read from or written to this block device.";
                     type_line "disk_read_bytes" "COUNTER";
                     line;
                     newline ]
                ++ after,
                (sensu.CheckStateOK, None))
    ∧ (line = "disk_read_bytes{device=" +:+ quote +:+ "sda" +:+ quote
              +:+ ",mountpoint=" +:+ quote +:+ "/" +:+ quote +:+ "} 1024" +:+ newline
       ∨ line = "disk_read_bytes{mountpoint=" +:+ quote +:+ "/" +:+ quote
                +:+ ",device=" +:+ quote +:+ "sda" +:+ quote +:+ "} 1024" +:+ newline).
Proof.
  intros Hcounters Hformat
    (visits & diag & order & rs & Hvisits & _ & Horder & Hrs & ->)%executeCheck_inv.
  cbn [fst] in Hvisits, Horder.
  inversion Hvisits as [|p visit ? visits' Hvisit Hnil]; subst. inversion Hnil; subst.
  unfold range_order in Hvisit. cbn [disk.Device] in Hvisit.
  rewrite Hcounters, map_to_list_singleton in Hvisit.
  apply Permutation_singleton_r in Hvisit as ->.
  assert (("disk_read_bytes", disk.ReadBytes) ∈ fields) as Hfield by apply list_elem_of_here.
  destruct (fields_series _ _ Hfield) as (g0 & Hg0 & _).
  assert (g0 = {| Name := "disk_read_bytes"; Type_ := "COUNTER";
                  Comment := "These values count the number of bytes read from or written to this block device.";
                  Metrics := [] |}) as ->.
  { pose proof (elem_of_list_to_map_1 _ _ _ series_table_NoDup Hg0) as Hlook.
    apply (f_equal (fmap fst)) in Hlook. vm_compute in Hlook. by injection Hlook as <-. }
  destruct (series_rendered Sprintf_v _ _ _ _ _ _ Horder Hrs Hg0) as (r & Hr & Hout).
  apply Output_inv in Hout as (_ & tvisits & Htvisits & Hr2).
  cbn [series_after Metrics Name Type_ Comment fst snd records zip_with concat app
         fmap list_fmap observation] in Htvisits, Hr2.
  inversion Htvisits as [|? tvisit ? ? Htvisit Hnil']; subst. inversion Hnil'; subst.
  unfold range_order in Htvisit. cbn [Tags observation fst snd] in Htvisit.
  assert (map_to_list (record_tags {| disk.Device := device; disk.Mountpoint := "/" |}
                         Example.sda_stat)
          = [("mountpoint", "/"); ("device", "sda")]) as Hlist by (by vm_compute).
  rewrite Hlist in Htvisit. clear Hlist.
  assert ((r.2 : list string) ∈ rs.*2) as Hblock by (apply list_elem_of_fmap; by exists r).
  apply concat_split in Hblock as (before & after & Hsplit).
  exists (diag ++ before),
         (observation_line Sprintf_v "disk_read_bytes" tvisit (float64_of_uint64 1024)),
         after.
  split.
  - rewrite Hsplit, Hr2. cbn [zip_with app Value]. by rewrite <- (assoc_L (++)).
  - unfold observation_line. rewrite Hformat.
    apply Permutation_pair in Htvisit as [-> | ->]; [right|left]; reflexivity.
Qed.

Lemma end_to_end_example_witness :
  (Example.IOCounters "/dev/sda").1 = {[ "sda" := Example.sda_stat ]}
  ∧ Example.format_plain (float64_of_uint64 1024) = "1024"
  ∧ ∃ before line after,
      executeCheck_listed Example.format_plain Example.one_disk Example.IOCounters
      = Some (before
              ++ [ help_line "disk_read_bytes" "COUNTER"
                     "These values count the number of bytes read from or written to this block device.";
                   type_line "disk_read_bytes" "COUNTER";
                   line;
                   newline ]
              ++ after,
              (sensu.CheckStateOK, None))
      ∧ (line = "disk_read_bytes{device=" +:+ quote +:+ "sda" +:+ quote
                +:+ ",mountpoint=" +:+ quote +:+ "/" +:+ quote +:+ "} 1024" +:+ newline
         ∨ line = "disk_read_bytes{mountpoint=" +:+ quote +:+ "/" +:+ quote
                  +:+ ",device=" +:+ quote +:+ "sda" +:+ quote +:+ "} 1024" +:+ newline).
Proof.
  split; [reflexivity|]. split; [reflexivity|].
  apply (end_to_end_example Example.format_plain "/dev/sda" "sda" None Example.IOCounters).
  - reflexivity.
  - reflexivity.
  - apply (executeCheck_listed_run Example.format_plain Example.one_disk).
Defined.

(** C5. Whichever collaborator calls fail, [executeCheck] completes: it has
    a result, no run panics, every run returns the OK status without error,
    and the text of every run holds the header lines of all 11 series. *)
Theorem executeCheck_always_OK (Sprintf_v : float64 → string)
    (Partitions : PartitionsResult) (IOCounters : string → IOCountersResult) :
  (∃ res, executeCheck Sprintf_v Partitions IOCounters res)
  ∧ ∀ res, executeCheck Sprintf_v Partitions IOCounters res →
      ∃ out,
        res = Some (out, (sensu.CheckStateOK, None))
        ∧ ∀ name type, (name, type) ∈ series_catalog →
            ∃ help before after,
              out = before ++ [help_line name type help; type_line name type] ++ after.
Proof.
  split.
  - eexists. apply executeCheck_listed_run.
  - intros res (diag & blocks & heads & -> & _ & _ & Hheads & Hblocks)%executeCheck_blocks.
    eexists. split; [reflexivity|].
    intros name type Hin. rewrite <- Hheads in Hin.
    apply list_elem_of_lookup in Hin as [i Hi].
    destruct (Forall2_lookup_l _ _ _ _ _ Hblocks Hi) as (block & Hblock & Hshape).
    destruct Hshape as (help & lines & -> & _). cbn [fst snd] in Hblock.
    apply list_elem_of_lookup_2, concat_split in Hblock as (before & after & ->).
    exists help, (diag ++ before), (lines ++ [newline] ++ after).
    by rewrite <- !(assoc_L (++)).
Qed.

Lemma executeCheck_always_OK_witness :
  executeCheck Example.format_plain Example.two_disks Example.IOCounters
    (executeCheck_listed Example.format_plain Example.two_disks Example.IOCounters)
  ∧ ∃ out,
      executeCheck_listed Example.format_plain Example.two_disks Example.IOCounters
      = Some (out, (sensu.CheckStateOK, None))
      ∧ ∀ name type, (name, type) ∈ series_catalog →
          ∃ help before after,
            out = before ++ [help_line name type help; type_line name type] ++ after.
Proof.
  split; [apply executeCheck_listed_run|].
  apply (proj2 (executeCheck_always_OK Example.format_plain Example.two_disks
                  Example.IOCounters)).
  apply executeCheck_listed_run.
Defined.

(** C6. When the counters of exactly one discovered device cannot be read,
    the run still completes with the OK status, and for every other device
    each record of its counters has its observation line in the text of
    every series. *)
Theorem partial_failure_tolerated (Sprintf_v : float64 → string)
    (Partitions : PartitionsResult) (IOCounters : string → IOCountersResult)
    (bad : disk.PartitionStat) (res : option (list string * (Z * option error))) :
  bad ∈ Partitions.1 →
  is_Some (IOCounters (disk.Device bad)).2 →
  (∀ p, p ∈ Partitions.1 → disk.Device p ≠ disk.Device bad →
        (IOCounters (disk.Device p)).2 = None) →
  executeCheck Sprintf_v Partitions IOCounters res →
  ∃ out,
    res = Some (out, (sensu.CheckStateOK, None))
    ∧ ∀ p k v key field,
        p ∈ Partitions.1 → disk.Device p ≠ disk.Device bad →
        (IOCounters (disk.Device p)).1 !! k = Some v →
        (key, field) ∈ fields →
        ∃ visit,
          range_order (record_tags p v) visit
          ∧ key +:+ tag_fragment visit +:+ " " +:+ Sprintf_v (float64_of_uint64 (field v))
            +:+ newline ∈ out.
Proof.
  intros _ _ _ (out & -> & Hlines)%executeCheck_observations.
  exists out. split; [reflexivity|].
  intros p k v key field Hp _ Hv Hfield. by eapply Hlines.
Qed.

Lemma partial_failure_tolerated_witness :
  Example.sdb ∈ Example.two_disks.1
  ∧ is_Some (Example.IOCounters (disk.Device Example.sdb)).2
  ∧ ∃ out,
      executeCheck_listed Example.format_plain Example.two_disks Example.IOCounters
      = Some (out, (sensu.CheckStateOK, None))
      ∧ ∀ p k v key field,
          p ∈ Example.two_disks.1 → disk.Device p ≠ disk.Device Example.sdb →
          (Example.IOCounters (disk.Device p)).1 !! k = Some v →
          (key, field) ∈ fields →
          ∃ visit,
            range_order (record_tags p v) visit
            ∧ key +:+ tag_fragment visit +:+ " "
              +:+ Example.format_plain (float64_of_uint64 (field v)) +:+ newline ∈ out.
Proof.
  assert (Example.sdb ∈ Example.two_disks.1) as Hbad.
  { apply list_elem_of_further, list_elem_of_here. }
  assert (is_Some (Example.IOCounters (disk.Device Example.sdb)).2) as Hfails.
  { by exists "no such device". }
  split; [exact Hbad|]. split; [exact Hfails|].
  apply (partial_failure_tolerated Example.format_plain Example.two_disks Example.IOCounters
           Example.sdb); [exact Hbad|exact Hfails| |].
  - intros p Hp Hne.
    apply elem_of_cons in Hp as [->|Hp]; [reflexivity|].
    apply list_elem_of_singleton in Hp as ->. by destruct Hne.
  - apply executeCheck_listed_run.
Defined.

(** * The claims about the collection pass *)

Section Pass.

Variable Partitions : PartitionsResult.
Variable IOCounters : string → IOCountersResult.

Lemma grows_refl (reg : gmap string MetricGroup) : grows reg reg.
Proof. intros key g Hg. exists g. by repeat split. Qed.

Lemma grows_trans (reg1 reg2 reg3 : gmap string MetricGroup) :
  grows reg1 reg2 → grows reg2 reg3 → grows reg1 reg3.
Proof.
  intros H12 H23 key g1 Hg1.
  destruct (H12 _ _ Hg1) as (g2 & Hg2 & (Hn2 & Ht2 & Hc2) & Hm2).
  destruct (H23 _ _ Hg2) as (g3 & Hg3 & (Hn3 & Ht3 & Hc3) & Hm3).
  exists g3. split; [done|]. split.
  - repeat split; congruence.
  - by etrans.
Qed.

Lemma pass_stmt_grows (s : Step) (st st' : Run) :
  pass_stmt s → s st = Some st' → grows (groups st) (groups st').
Proof.
  intros [format args|key tags value] Hstep.
  - injection Hstep as <-. apply grows_refl.
  - unfold AddMetric_at in Hstep.
    destruct (groups st !! key) as [g|] eqn:Hkey; [|discriminate Hstep].
    injection Hstep as <-. cbn [groups]. intros key' g' Hg'.
    destruct (decide (key = key')) as [<-|Hne].
    + rewrite lookup_insert_eq. assert (g' = g) as -> by congruence.
      exists (AddMetric g tags value). split; [done|]. split; [by repeat split|].
      by apply prefix_app_r.
    + rewrite lookup_insert_ne by done. exists g'. by repeat split.
Qed.

Lemma run_grows (stmts : list Step) (st st' : Run) :
  Forall pass_stmt stmts → run stmts st = Some st' → grows (groups st) (groups st').
Proof.
  intros Hall. revert st. induction Hall as [|s stmts Hs _ IH]; intros st Hrun.
  - injection Hrun as <-. apply grows_refl.
  - cbn [run] in Hrun. destruct (s st) as [st1|] eqn:Hstep; [|discriminate Hrun].
    eapply grows_trans; [by eapply pass_stmt_grows|by apply IH].
Qed.

Lemma record_body_pass p v : Forall pass_stmt (record_body p v).
Proof. unfold record_body. repeat constructor. Qed.

Lemma collection_pass (visits : list (list (string * disk.IOCountersStat))) :
  Forall pass_stmt (collection Partitions IOCounters visits).
Proof.
  unfold collection. apply Forall_app. split.
  - destruct Partitions.2; repeat constructor.
  - generalize Partitions.1 as parts. intros parts. revert visits.
    induction parts as [|p parts IH]; intros [|visit visits]; try constructor.
    cbn [zip_with concat]. apply Forall_app. split; [|apply IH].
    unfold partition_body. apply Forall_app. split.
    + destruct (IOCounters (disk.Device p)).2; repeat constructor.
    + induction visit as [|kv visit IHv]; [constructor|].
      cbn [map concat]. apply Forall_app. split; [apply record_body_pass|exact IHv].
Qed.

Lemma point_split (stmts : list Step) (i j : nat) :
  i ≤ j → point stmts j = point stmts i ≫= run (take (j - i) (drop i stmts)).
Proof.
  intros Hij. unfold point. rewrite <- run_app, take_take_drop. do 2 f_equal. lia.
Qed.

(** No point of the collection pass panics. *)
Lemma point_collection (visits : list (list (string * disk.IOCountersStat))) (n : nat) :
  is_Some (point (collection Partitions IOCounters visits) n).
Proof.
  destruct (run_collection Partitions IOCounters visits) as (diag & _ & Hrun).
  rewrite <- (take_drop n (collection Partitions IOCounters visits)), run_app in Hrun.
  unfold point. destruct (run (take n _) initial); [eauto|discriminate Hrun].
Qed.

Lemma record_tags_list (p : disk.PartitionStat) (v : disk.IOCountersStat) :
  map_to_list (record_tags p v)
  ≡ₚ [("mountpoint", disk.Mountpoint p); ("device", disk.Name v)].
Proof.
  unfold record_tags. rewrite map_to_list_insert.
  - by rewrite insert_empty, map_to_list_singleton.
  - by rewrite lookup_insert_ne.
Qed.

End Pass.

(** C9. The name, type and help text of a series never change once the
    registry is built: [AddMetric] only appends one observation, [Output]
    changes nothing, and from any point of the collection pass to any later
    point every series keeps its identity while its observations only grow.
    No point of the pass panics. *)
Theorem series_identity_fixed (Sprintf_v : float64 → string)
    (Partitions : PartitionsResult) (IOCounters : string → IOCountersResult) :
  (∀ g tags value,
      same_identity g (AddMetric g tags value)
      ∧ Metrics (AddMetric g tags value) = Metrics g ++ [ {| Tags := tags; Value := value |} ])
  ∧ (∀ g r, Output Sprintf_v g r → r.1 = g)
  ∧ (∀ visits n, is_Some (point (collection Partitions IOCounters visits) n))
  ∧ (∀ visits i j st_i st_j key g_i,
        i ≤ j →
        point (collection Partitions IOCounters visits) i = Some st_i →
        point (collection Partitions IOCounters visits) j = Some st_j →
        groups st_i !! key = Some g_i →
        ∃ g_j, groups st_j !! key = Some g_j
               ∧ same_identity g_i g_j
               ∧ Metrics g_i `prefix_of` Metrics g_j).
Proof.
  split_and!.
  - intros g tags value. by repeat split.
  - by intros g r (Hg & _)%Output_inv.
  - apply point_collection.
  - intros visits i j st_i st_j key g_i Hij Hi Hj Hkey.
    rewrite (point_split _ i j Hij), Hi in Hj. cbn [mbind option_bind] in Hj.
    eapply run_grows; [|exact Hj|exact Hkey].
    apply Forall_take, Forall_drop, collection_pass.
Qed.

Lemma series_identity_fixed_witness :
  Output Example.format_plain Example.read_bytes
         (Output_with Example.format_plain Example.read_bytes [Example.mountpoint_first])
  ∧ (Output_with Example.format_plain Example.read_bytes [Example.mountpoint_first]).1
    = Example.read_bytes.
Proof.
  assert (Output Example.format_plain Example.read_bytes
            (Output_with Example.format_plain Example.read_bytes [Example.mountpoint_first]))
    as Hrun.
  { exists [Example.mountpoint_first]. split; [|reflexivity]. visits_ok. }
  split; [exact Hrun|].
  exact (proj1 (proj2 (series_identity_fixed Example.format_plain Example.one_disk
                         Example.IOCounters)) _ _ Hrun).
Defined.

(** C10, the claim as stated fails: on the machine with the one disk [sda],
    after the first statement of the collection pass [disk_read_bytes] has
    one observation and [disk_write_bytes] has none. *)
Lemma counts_differ_within_record :
  Forall2 (λ p visit, range_order (Example.IOCounters (disk.Device p)).1 visit)
          Example.one_disk.1 [[("sda", Example.sda_stat)]]
  ∧ ∃ st,
      point (collection Example.one_disk Example.IOCounters [[("sda", Example.sda_stat)]]) 1
      = Some st
      ∧ ¬ equal_counts (groups st).
Proof.
  split; [visits_ok|].
  eexists. split; [reflexivity|].
  intros Hequal.
  match type of Hequal with
  | equal_counts ?reg =>
      assert (length ∘ Metrics <$> reg !! "disk_read_bytes" = Some 1) as H1
        by (vm_compute; reflexivity);
      assert (length ∘ Metrics <$> reg !! "disk_write_bytes" = Some 0) as H2
        by (vm_compute; reflexivity);
      destruct (reg !! "disk_read_bytes") as [g1|] eqn:Hg1; [|discriminate H1];
      destruct (reg !! "disk_write_bytes") as [g2|] eqn:Hg2; [|discriminate H2];
      pose proof (Hequal _ _ _ _ Hg1 Hg2) as Hlen
  end.
  injection H1 as H1. injection H2 as H2. cbn in H1, H2. lia.
Qed.

(** C10, amended. The collection pass is made of diagnostics and of whole
    record bodies.  After any prefix of it made of whole record bodies, and
    so after the pass, all series hold the same number of observations: each
    series holds one observation per record processed, in order, and the
    observations of one record carry the same two tags, [device] and
    [mountpoint], in all 11 series. *)
Theorem counts_equal_between_records
    (Partitions : PartitionsResult) (IOCounters : string → IOCountersResult)
    (visits : list (list (string * disk.IOCountersStat))) :
  whole_records (collection Partitions IOCounters visits) (records Partitions.1 visits)
  ∧ (∀ stmts rest recs,
        collection Partitions IOCounters visits = stmts ++ rest →
        whole_records stmts recs →
        ∃ st,
          run stmts initial = Some st
          ∧ equal_counts (groups st)
          ∧ (∀ key g, groups st !! key = Some g → length (Metrics g) = length recs)
          ∧ ∀ key field, (key, field) ∈ fields →
              ∃ g, groups st !! key = Some g
                   ∧ Metrics g
                     = (λ pv : disk.PartitionStat * disk.IOCountersStat,
                          {| Tags := record_tags pv.1 pv.2;
                             Value := float64_of_uint64 (field pv.2) |}) <$> recs)
  ∧ (∀ p v, map_to_list (record_tags p v)
            ≡ₚ [("mountpoint", disk.Mountpoint p); ("device", disk.Name v)]).
Proof.
  split_and!.
  - apply whole_collection.
  - intros stmts rest recs _ Hwhole.
    destruct (whole_records_run _ _ Hwhole [] []) as (diag & _ & Hrun).
    rewrite registry_after_nil in Hrun. eexists. split; [exact Hrun|].
    cbn [groups app]. split_and!.
    + apply registry_after_equal_counts.
    + intros key g (g0 & field & _ & ->)%lookup_registry_after_inv.
      cbn. by rewrite length_fmap.
    + intros key field Hfield. destruct (fields_series _ _ Hfield) as (g0 & Hg0 & _).
      eexists. split; [by apply lookup_registry_after|reflexivity].
  - apply record_tags_list.
Qed.

Lemma counts_equal_between_records_witness :
  collection Example.one_disk Example.IOCounters [[("sda", Example.sda_stat)]]
  = record_body Example.sda Example.sda_stat ++ []
  ∧ whole_records (record_body Example.sda Example.sda_stat) [(Example.sda, Example.sda_stat)]
  ∧ ∃ st,
      run (record_body Example.sda Example.sda_stat) initial = Some st
      ∧ equal_counts (groups st).
Proof.
  assert (collection Example.one_disk Example.IOCounters [[("sda", Example.sda_stat)]]
          = record_body Example.sda Example.sda_stat ++ []) as Hsplit by reflexivity.
  assert (whole_records (record_body Example.sda Example.sda_stat)
                        [(Example.sda, Example.sda_stat)]) as Hwhole.
  { apply (whole_record [] [] Example.sda Example.sda_stat). constructor. }
  split; [exact Hsplit|]. split; [exact Hwhole|].
  destruct (proj1 (proj2 (counts_equal_between_records Example.one_disk Example.IOCounters
                            [[("sda", Example.sda_stat)]])) _ _ _ Hsplit Hwhole)
    as (st & Hrun & Hequal & _).
  exists st. by split.
Defined.

(** * Further properties of [executeCheck] *)

Section Report_exact.

Variable Sprintf_v : float64 → string.
Variable Partitions : PartitionsResult.
Variable IOCounters : string → IOCountersResult.

Lemma Sprintf_partitions (err : error) :
  Sprintf "Failed to get partitions, error: %v" [err]
  = "Failed to get partitions, error: " +:+ err.
Proof. rewrite <- (string_app_empty_r err) at 2. reflexivity. Qed.

Lemma Sprintf_counters (err : error) :
  Sprintf "Failed to get IO counters, error: %v" [err]
  = "Failed to get IO counters, error: " +:+ err.
Proof. rewrite <- (string_app_empty_r err) at 2. reflexivity. Qed.

Lemma run_records p (visit : list (string * disk.IOCountersStat)) out recs :
  run (concat (map (λ kv, record_body p kv.2) visit))
      {| stdout := out; groups := registry_after recs |}
  = Some {| stdout := out;
            groups := registry_after
                        (recs ++ ((λ kv : string * disk.IOCountersStat, (p, kv.2)) <$> visit)) |}.
Proof.
  revert recs. induction visit as [|kv visit IH]; intros recs.
  - cbn. by rewrite app_nil_r.
  - cbn [map concat fmap list_fmap]. rewrite run_app, run_record_body.
    cbn [mbind option_bind]. rewrite IH. by rewrite <- (assoc_L (++)).
Qed.

Lemma run_partition_body p (visit : list (string * disk.IOCountersStat)) out recs :
  run (partition_body IOCounters p visit) {| stdout := out; groups := registry_after recs |}
  = Some {| stdout := out ++ counters_failure IOCounters p;
            groups := registry_after
                        (recs ++ ((λ kv : string * disk.IOCountersStat, (p, kv.2)) <$> visit)) |}.
Proof.
  unfold partition_body, counters_failure. rewrite run_app.
  destruct (IOCounters (disk.Device p)).2 as [err|].
  - cbn [run Printf mbind option_bind stdout groups].
    by rewrite Sprintf_counters, run_records.
  - cbn [run mbind option_bind]. by rewrite run_records, app_nil_r.
Qed.

Lemma run_partitions parts (visits : list (list (string * disk.IOCountersStat))) out recs :
  length parts = length visits →
  run (concat (zip_with (partition_body IOCounters) parts visits))
      {| stdout := out; groups := registry_after recs |}
  = Some {| stdout := out ++ concat (counters_failure IOCounters <$> parts);
            groups := registry_after (recs ++ records parts visits) |}.
Proof.
  revert visits out recs.
  induction parts as [|p parts IH]; intros [|visit visits] out recs Hlen; try discriminate Hlen.
  - cbn. by rewrite !app_nil_r.
  - cbn [zip_with concat fmap list_fmap]. rewrite run_app, run_partition_body.
    cbn [mbind option_bind]. rewrite IH by (by injection Hlen).
    unfold records. cbn [zip_with concat]. by rewrite <- !(assoc_L (++)).
Qed.

(** The state the render loop starts from. *)
Lemma run_collection_exact (visits : list (list (string * disk.IOCountersStat))) :
  length Partitions.1 = length visits →
  run (collection Partitions IOCounters visits) initial
  = Some {| stdout := diagnostics Partitions IOCounters;
            groups := registry_after (records Partitions.1 visits) |}.
Proof.
  intros Hlen. unfold collection, diagnostics, partitions_failure, initial.
  rewrite <- registry_after_nil, run_app.
  destruct Partitions.2 as [err|].
  - cbn [run Printf mbind option_bind stdout groups].
    by rewrite Sprintf_partitions, run_partitions.
  - cbn [run mbind option_bind]. by rewrite run_partitions.
Qed.

Lemma visits_of_records (field : disk.IOCountersStat → Z)
    (recs : list (disk.PartitionStat * disk.IOCountersStat))
    (visits : list (list (string * string))) :
  Forall2 (λ m visit, range_order (Tags m) visit) (observation field <$> recs) visits
  ↔ Forall2 (λ pv visit, range_order (record_tags pv.1 pv.2) visit) recs visits.
Proof. rewrite Forall2_fmap_l. reflexivity. Qed.

(** The rendering of a filled series is its block. *)
Lemma Output_series_block recs gf r :
  Output Sprintf_v (series_after recs gf) r ↔
  ∃ visits,
    Forall2 (λ pv visit, range_order (record_tags pv.1 pv.2) visit) recs visits
    ∧ r = (series_after recs gf, series_block Sprintf_v gf recs visits).
Proof.
  assert (∀ visits,
            (Output_with Sprintf_v (series_after recs gf) visits).2
            = series_block Sprintf_v gf recs visits) as Hblock.
  { intros visits. rewrite Output_with_spec. unfold series_block.
    cbn [series_after Name Type_ Comment Metrics]. do 3 f_equal.
    by rewrite zip_with_fmap_l. }
  split.
  - intros (visits & Hvisits & ->). exists visits. split.
    + cbn [series_after Metrics] in Hvisits. by apply visits_of_records in Hvisits.
    + rewrite <- Hblock. reflexivity.
  - intros (visits & Hvisits & ->). exists visits. split.
    + cbn [series_after Metrics]. by apply visits_of_records.
    + rewrite <- Hblock. reflexivity.
Qed.

Lemma render_loop_blocks recs (order : list (string * (MetricGroup * (disk.IOCountersStat → Z))))
    (rs : list (MetricGroup * list string)) :
  Forall2 (λ kv r, Output Sprintf_v kv.2 r) (prod_map id (series_after recs) <$> order) rs →
  ∃ tvs,
    Forall2 (λ _ tv, Forall2 (λ pv visit, range_order (record_tags pv.1 pv.2) visit) recs tv)
            order tvs
    ∧ rs.*2 = zip_with (λ kgf tv, series_block Sprintf_v kgf.2 recs tv) order tvs.
Proof.
  revert rs. induction order as [|[key gf] order IH]; intros rs Hrs.
  - inversion Hrs. exists []. by split.
  - cbn [fmap list_fmap] in Hrs.
    inversion Hrs as [|? r ? rs' Hr Hrest]; subst.
    destruct (IH _ Hrest) as (tvs & Htvs & Heq).
    cbn [prod_map snd] in Hr. apply Output_series_block in Hr as (tv & Htv & ->).
    exists (tv :: tvs). split; [by constructor|].
    cbn [fmap list_fmap zip_with snd]. by rewrite <- Heq.
Qed.

Lemma blocks_render_loop recs (order : list (string * (MetricGroup * (disk.IOCountersStat → Z))))
    (tvs : list (list (list (string * string)))) :
  Forall2 (λ _ tv, Forall2 (λ pv visit, range_order (record_tags pv.1 pv.2) visit) recs tv)
          order tvs →
  ∃ rs,
    Forall2 (λ kv r, Output Sprintf_v kv.2 r) (prod_map id (series_after recs) <$> order) rs
    ∧ rs.*2 = zip_with (λ kgf tv, series_block Sprintf_v kgf.2 recs tv) order tvs.
Proof.
  induction 1 as [|[key gf] tv order tvs Htv _ (rs & Hrs & Heq)].
  - exists []. by split.
  - exists ((series_after recs gf, series_block Sprintf_v gf recs tv) :: rs). split.
    + cbn [fmap list_fmap]. constructor; [|exact Hrs].
      cbn [prod_map snd]. apply Output_series_block. by exists tv.
    + cbn [fmap list_fmap zip_with snd]. by rewrite <- Heq.
Qed.

Lemma executeCheck_closed_form res :
  executeCheck Sprintf_v Partitions IOCounters res ↔
  ∃ visits order tvs,
    Forall2 (λ p visit, range_order (IOCounters (disk.Device p)).1 visit) Partitions.1 visits
    ∧ order ≡ₚ series_table
    ∧ Forall2 (λ _ tv, Forall2 (λ pv visit, range_order (record_tags pv.1 pv.2) visit)
                               (records Partitions.1 visits) tv)
              order tvs
    ∧ res = Some (diagnostics Partitions IOCounters
                  ++ concat (zip_with (λ kgf tv, series_block Sprintf_v kgf.2
                                                   (records Partitions.1 visits) tv)
                                      order tvs),
                  (sensu.CheckStateOK, None)).
Proof.
  split.
  - intros (visits & Hvisits & Hrun).
    rewrite run_collection_exact in Hrun by (by eapply Forall2_length).
    destruct Hrun as (order' & rs & Horder & Hrs & ->).
    unfold range_order in Horder. cbn [groups stdout] in *.
    rewrite registry_after_list in Horder.
    apply Permutation_map_inv in Horder as (order & -> & Horder).
    destruct (render_loop_blocks _ _ _ Hrs) as (tvs & Htvs & Heq).
    exists visits, order, tvs. split_and!; [done|by symmetry|done|by rewrite Heq].
  - intros (visits & order & tvs & Hvisits & Horder & Htvs & ->).
    exists visits. split; [done|].
    rewrite run_collection_exact by (by eapply Forall2_length).
    destruct (blocks_render_loop _ _ _ Htvs) as (rs & Hrs & Heq).
    exists (prod_map id (series_after (records Partitions.1 visits)) <$> order), rs.
    split_and!; [|done|by rewrite Heq].
    unfold range_order. cbn [groups]. by rewrite registry_after_list, Horder.
Qed.

Lemma records_length parts (visits : list (list (string * disk.IOCountersStat))) :
  Forall2 (λ p visit, range_order (IOCounters (disk.Device p)).1 visit) parts visits →
  length (records parts visits)
  = sum_list ((λ p, size (IOCounters (disk.Device p)).1) <$> parts).
Proof.
  unfold records. induction 1 as [|p visit parts visits Hvisit _ IH]; [reflexivity|].
  cbn [zip_with concat fmap list_fmap sum_list]. rewrite length_app, length_fmap, IH.
  unfold range_order in Hvisit. by rewrite Hvisit, length_map_to_list.
Qed.

End Report_exact.

(** X1. The runs of [executeCheck], in closed form: a result is a run exactly
    when it is the OK status with, as text, the diagnostics followed by the
    blocks of the 11 series in some order, every block listing the processed
    records in processing order (the partitions in the order enumerated,
    the records of one partition in the order its counters were visited),
    each with the series' own counter and the record's tags in some order. *)
Theorem executeCheck_report (Sprintf_v : float64 → string)
    (Partitions : PartitionsResult) (IOCounters : string → IOCountersResult)
    (res : option (list string * (Z * option error))) :
  executeCheck Sprintf_v Partitions IOCounters res ↔
  ∃ visits order tvs,
    Forall2 (λ p visit, range_order (IOCounters (disk.Device p)).1 visit) Partitions.1 visits
    ∧ order ≡ₚ series_table
    ∧ Forall2 (λ _ tv, Forall2 (λ pv visit, range_order (record_tags pv.1 pv.2) visit)
                               (records Partitions.1 visits) tv)
              order tvs
    ∧ res = Some (diagnostics Partitions IOCounters
                  ++ concat (zip_with (λ kgf tv, series_block Sprintf_v kgf.2
                                                   (records Partitions.1 visits) tv)
                                      order tvs),
                  (sensu.CheckStateOK, None)).
Proof. apply executeCheck_closed_form. Qed.

Section Report_shape.

Variable Sprintf_v : float64 → string.
Variable Partitions : PartitionsResult.
Variable IOCounters : string → IOCountersResult.

Lemma bytes_app (l k : list string) : bytes (l ++ k) = bytes l +:+ bytes k.
Proof.
  unfold bytes. induction l as [|s l IH]; [reflexivity|].
  cbn [app foldr]. by rewrite IH, string_app_assoc.
Qed.

Lemma blocks_length recs (order : list (string * (MetricGroup * (disk.IOCountersStat → Z))))
    (tvs : list (list (list (string * string)))) :
  Forall2 (λ _ tv, Forall2 (λ pv visit, range_order (record_tags pv.1 pv.2) visit) recs tv)
          order tvs →
  length (concat (zip_with (λ kgf tv, series_block Sprintf_v kgf.2 recs tv) order tvs))
  = length order * (3 + length recs).
Proof.
  induction 1 as [|kgf tv order tvs Htv _ IH]; [reflexivity|].
  cbn [zip_with concat length]. rewrite length_app, IH.
  unfold series_block. cbn [app length]. rewrite length_app, length_zip_with.
  apply Forall2_length in Htv. cbn [length]. lia.
Qed.

Lemma records_empty parts (visits : list (list (string * disk.IOCountersStat))) :
  (∀ p, p ∈ parts → (IOCounters (disk.Device p)).1 = ∅) →
  Forall2 (λ p visit, range_order (IOCounters (disk.Device p)).1 visit) parts visits →
  records parts visits = [].
Proof.
  intros Hempty. unfold records.
  induction 1 as [|p visit parts visits Hvisit _ IH]; [reflexivity|].
  cbn [zip_with concat]. unfold range_order in Hvisit.
  rewrite (Hempty p), map_to_list_empty in Hvisit by apply list_elem_of_here.
  apply Permutation_nil_r in Hvisit as ->. cbn [fmap list_fmap app].
  apply IH. intros p' Hp'. by apply Hempty, list_elem_of_further.
Qed.

Lemma blocks_empty (order : list (string * (MetricGroup * (disk.IOCountersStat → Z))))
    (tvs : list (list (list (string * string)))) :
  Forall2 (λ _ tv, Forall2 (λ pv visit, range_order (record_tags pv.1 pv.2) visit) [] tv)
          order tvs →
  zip_with (λ kgf tv, series_block Sprintf_v kgf.2 [] tv) order tvs
  = (λ kg : string * MetricGroup,
       [ help_line (Name kg.2) (Type_ kg.2) (Comment kg.2);
         type_line (Name kg.2) (Type_ kg.2); newline ])
    <$> ((λ kgf : string * (MetricGroup * (disk.IOCountersStat → Z)), (kgf.1, kgf.2.1))
         <$> order).
Proof.
  induction 1 as [|kgf tv order tvs Htv _ IH]; [reflexivity|].
  inversion Htv; subst. cbn [zip_with fmap list_fmap]. by rewrite IH.
Qed.

End Report_shape.

(** X2. The diagnostics do not end their line and nothing separates them
    from the report: the byte stream of every run is the diagnostics put
    end to end, immediately followed by [# HELP ] of the first block. *)
Theorem diagnostics_share_a_line (Sprintf_v : float64 → string)
    (Partitions : PartitionsResult) (IOCounters : string → IOCountersResult)
    (res : option (list string * (Z * option error))) :
  executeCheck Sprintf_v Partitions IOCounters res →
  ∃ out rest,
    res = Some (out, (sensu.CheckStateOK, None))
    ∧ bytes out
      = bytes (partitions_failure Partitions)
        +:+ bytes (concat (counters_failure IOCounters <$> Partitions.1))
        +:+ "# HELP " +:+ rest.
Proof.
  intros (visits & order & tvs & _ & Horder & Htvs & ->)%executeCheck_closed_form.
  destruct Htvs as [|kgf tv order tvs _ _].
  { apply Permutation_nil_l in Horder. discriminate Horder. }
  eexists _, _. split; [reflexivity|].
  unfold diagnostics. rewrite !bytes_app, string_app_assoc.
  cbn [zip_with concat]. unfold series_block, help_line.
  cbn [app bytes foldr]. rewrite !string_app_assoc. reflexivity.
Qed.

Lemma diagnostics_share_a_line_witness :
  ∃ out rest,
    executeCheck_listed Example.format_plain Flaky.Partitions Flaky.IOCounters
    = Some (out, (sensu.CheckStateOK, None))
    ∧ bytes out
      = bytes (partitions_failure Flaky.Partitions)
        +:+ bytes (concat (counters_failure Flaky.IOCounters <$> Flaky.Partitions.1))
        +:+ "# HELP " +:+ rest.
Proof.
  apply (diagnostics_share_a_line Example.format_plain Flaky.Partitions Flaky.IOCounters).
  apply executeCheck_listed_run.
Defined.

(** X3. A failure never drops data: when the enumeration fails but returns
    partitions, and the counters of a partition fail but return records, both
    diagnostics are written and every such record still has its observation
    line in every series. *)
Theorem failed_calls_still_report (Sprintf_v : float64 → string)
    (Partitions : PartitionsResult) (IOCounters : string → IOCountersResult)
    (res : option (list string * (Z * option error)))
    (err0 err : error) (p : disk.PartitionStat) (k : string) (v : disk.IOCountersStat)
    (key : string) (field : disk.IOCountersStat → Z) :
  Partitions.2 = Some err0 →
  p ∈ Partitions.1 →
  (IOCounters (disk.Device p)).2 = Some err →
  (IOCounters (disk.Device p)).1 !! k = Some v →
  (key, field) ∈ fields →
  executeCheck Sprintf_v Partitions IOCounters res →
  ∃ out,
    res = Some (out, (sensu.CheckStateOK, None))
    ∧ "Failed to get partitions, error: " +:+ err0 ∈ out
    ∧ "Failed to get IO counters, error: " +:+ err ∈ out
    ∧ ∃ visit,
        range_order (record_tags p v) visit
        ∧ key +:+ tag_fragment visit +:+ " " +:+ Sprintf_v (float64_of_uint64 (field v))
          +:+ newline ∈ out.
Proof.
  intros Herr0 Hp Herr Hv Hfield Hrun.
  destruct (executeCheck_observations _ _ _ _ Hrun) as (out & Hout & Hlines).
  exists out. split; [exact Hout|].
  apply executeCheck_closed_form in Hrun as (visits & order & tvs & _ & _ & _ & Hres).
  rewrite Hout in Hres. injection Hres as ->.
  split_and!.
  - apply elem_of_app. left. unfold diagnostics, partitions_failure.
    rewrite Herr0. apply elem_of_app. left. apply list_elem_of_here.
  - apply elem_of_app. left. unfold diagnostics. apply elem_of_app. right.
    apply (elem_of_concat_blocks _ (counters_failure IOCounters p)).
    + unfold counters_failure. rewrite Herr. apply list_elem_of_here.
    + apply list_elem_of_fmap. by exists p.
  - by eapply Hlines.
Qed.

Lemma failed_calls_still_report_witness :
  ∃ out,
    executeCheck_listed Example.format_plain Flaky.Partitions Flaky.IOCounters
    = Some (out, (sensu.CheckStateOK, None))
    ∧ "Failed to get partitions, error: " +:+ "open /proc/self/mounts: interrupted" ∈ out
    ∧ "Failed to get IO counters, error: " +:+ "strconv.ParseUint: value out of range" ∈ out
    ∧ ∃ visit,
        range_order (record_tags Example.sda Example.sda_stat) visit
        ∧ "disk_write_bytes" +:+ tag_fragment visit +:+ " "
          +:+ Example.format_plain (float64_of_uint64 (disk.WriteBytes Example.sda_stat))
          +:+ newline ∈ out.
Proof.
  apply (failed_calls_still_report Example.format_plain Flaky.Partitions Flaky.IOCounters
           _ "open /proc/self/mounts: interrupted" "strconv.ParseUint: value out of range"
           Example.sda "sda" Example.sda_stat "disk_write_bytes" disk.WriteBytes).
  - reflexivity.
  - apply list_elem_of_here.
  - reflexivity.
  - reflexivity.
  - apply list_elem_of_further, list_elem_of_here.
  - apply executeCheck_listed_run.
Defined.

(** X4. The size of the report does not depend on the order the maps are
    visited in: every run makes one write per diagnostic and, for each of the
    11 series, three writes plus one per counter record held by the
    partitions (a device listed under two partitions counts twice). *)
Theorem report_size (Sprintf_v : float64 → string)
    (Partitions : PartitionsResult) (IOCounters : string → IOCountersResult)
    (res : option (list string * (Z * option error))) :
  executeCheck Sprintf_v Partitions IOCounters res →
  ∃ out,
    res = Some (out, (sensu.CheckStateOK, None))
    ∧ length out
      = length (diagnostics Partitions IOCounters)
        + 11 * (3 + record_count Partitions IOCounters).
Proof.
  intros (visits & order & tvs & Hvisits & Horder & Htvs & ->)%executeCheck_closed_form.
  eexists. split; [reflexivity|].
  rewrite length_app, (blocks_length _ _ _ _ Htvs), Horder.
  by rewrite (records_length _ _ _ Hvisits).
Qed.

Lemma report_size_witness :
  ∃ out,
    executeCheck_listed Example.format_plain Example.two_disks Example.IOCounters
    = Some (out, (sensu.CheckStateOK, None))
    ∧ length out
      = length (diagnostics Example.two_disks Example.IOCounters)
        + 11 * (3 + record_count Example.two_disks Example.IOCounters).
Proof.
  apply (report_size Example.format_plain Example.two_disks Example.IOCounters).
  apply executeCheck_listed_run.
Defined.

(** X5. With nothing to report (no partition, or no partition whose counters
    hold a record) the text is the diagnostics followed by the 11 series of
    the registry literal in some order, each as its HELP line with the
    literal's help text, its TYPE line and a blank line. *)
Theorem empty_report (Sprintf_v : float64 → string)
    (Partitions : PartitionsResult) (IOCounters : string → IOCountersResult)
    (res : option (list string * (Z * option error))) :
  (∀ p, p ∈ Partitions.1 → (IOCounters (disk.Device p)).1 = ∅) →
  executeCheck Sprintf_v Partitions IOCounters res →
  ∃ order,
    order ≡ₚ metricGroups_literal
    ∧ res = Some (diagnostics Partitions IOCounters
                  ++ concat ((λ kg : string * MetricGroup,
                                [ help_line (Name kg.2) (Type_ kg.2) (Comment kg.2);
                                  type_line (Name kg.2) (Type_ kg.2);
                                  newline ]) <$> order),
                  (sensu.CheckStateOK, None)).
Proof.
  intros Hempty
    (visits & order & tvs & Hvisits & Horder & Htvs & ->)%executeCheck_closed_form.
  rewrite (records_empty _ _ _ Hempty Hvisits) in *.
  exists ((λ kgf : string * (MetricGroup * (disk.IOCountersStat → Z)), (kgf.1, kgf.2.1))
          <$> order).
  split.
  - rewrite Horder. reflexivity.
  - by rewrite (blocks_empty _ _ _ Htvs).
Qed.

Lemma empty_report_witness :
  (∀ p, p ∈ ([] : list disk.PartitionStat) → (Example.IOCounters (disk.Device p)).1 = ∅)
  ∧ ∃ order,
      order ≡ₚ metricGroups_literal
      ∧ executeCheck_listed Example.format_plain ([], Some "permission denied")
          Example.IOCounters
        = Some (diagnostics ([], Some "permission denied") Example.IOCounters
                ++ concat ((λ kg : string * MetricGroup,
                              [ help_line (Name kg.2) (Type_ kg.2) (Comment kg.2);
                                type_line (Name kg.2) (Type_ kg.2);
                                newline ]) <$> order),
                (sensu.CheckStateOK, None)).
Proof.
  assert (∀ p, p ∈ ([] : list disk.PartitionStat) →
               (Example.IOCounters (disk.Device p)).1 = ∅) as Hempty.
  { intros p Hp. by apply elem_of_nil in Hp. }
  split; [exact Hempty|].
  apply (empty_report Example.format_plain ([], Some "permission denied") Example.IOCounters
           _ Hempty).
  apply executeCheck_listed_run.
Defined.

(** * Further properties of the registry and of [Output] *)

Section Registry_shape.

Lemma metricGroups_named : registry_named metricGroups.
Proof.
  intros key g Hg. unfold metricGroups in Hg. apply elem_of_list_to_map_2 in Hg.
  unfold metricGroups_literal in Hg.
  repeat (apply elem_of_cons in Hg as [[= -> ->]|Hg]; [reflexivity|]).
  by apply elem_of_nil in Hg.
Qed.

Lemma metricGroups_dom : dom metricGroups = list_to_set series_catalog.*1.
Proof. unfold metricGroups. by rewrite dom_list_to_map_L. Qed.

Lemma pass_stmt_shape (s : Step) (st st' : Run) :
  pass_stmt s → s st = Some st' →
  registry_named (groups st) →
  dom (groups st') = dom (groups st) ∧ registry_named (groups st').
Proof.
  intros [format args|key tags value] Hstep Hnamed.
  - injection Hstep as <-. by split.
  - unfold AddMetric_at in Hstep.
    destruct (groups st !! key) as [g|] eqn:Hkey; [|discriminate Hstep].
    injection Hstep as <-. cbn [groups]. split.
    + apply dom_insert_lookup_L. eauto.
    + intros key' g'. rewrite lookup_insert. case_decide as Heq.
      * intros [= <-]. subst key'. cbn. by apply Hnamed.
      * apply Hnamed.
Qed.

Lemma run_shape (stmts : list Step) (st st' : Run) :
  Forall pass_stmt stmts → run stmts st = Some st' →
  registry_named (groups st) →
  dom (groups st') = dom (groups st) ∧ registry_named (groups st').
Proof.
  intros Hall. revert st. induction Hall as [|s stmts Hs _ IH]; intros st Hrun Hnamed.
  - injection Hrun as <-. by split.
  - cbn [run] in Hrun. destruct (s st) as [st1|] eqn:Hstep; [|discriminate Hrun].
    destruct (pass_stmt_shape _ _ _ Hs Hstep Hnamed) as [Hdom1 Hnamed1].
    destruct (IH _ Hrun Hnamed1) as [Hdom Hnamed']. split; [congruence|done].
Qed.

End Registry_shape.

(** X6. At every point of the collection pass the registry holds exactly the
    11 series of the catalog, each filed under its own name: an append goes
    to the series the program names and never adds or removes a series. *)
Theorem registry_shape_kept (Partitions : PartitionsResult)
    (IOCounters : string → IOCountersResult)
    (visits : list (list (string * disk.IOCountersStat))) (n : nat) (st : Run) :
  point (collection Partitions IOCounters visits) n = Some st →
  dom (groups st) = list_to_set series_catalog.*1
  ∧ ∀ key g, groups st !! key = Some g → Name g = key.
Proof.
  intros Hpoint. unfold point in Hpoint.
  assert (Forall pass_stmt (take n (collection Partitions IOCounters visits))) as Hall
    by apply Forall_take, collection_pass.
  destruct (run_shape _ _ _ Hall Hpoint metricGroups_named) as [Hdom Hnamed].
  split; [|exact Hnamed]. rewrite Hdom. apply metricGroups_dom.
Qed.

Lemma registry_shape_kept_witness :
  ∃ st,
    point (collection Example.one_disk Example.IOCounters [[("sda", Example.sda_stat)]]) 5
    = Some st
    ∧ dom (groups st) = list_to_set series_catalog.*1.
Proof.
  eexists. split; [reflexivity|].
  eapply (registry_shape_kept Example.one_disk Example.IOCounters
            [[("sda", Example.sda_stat)]] 5).
  reflexivity.
Defined.

(** X7. Tag values are written as they are, quotes included, so the text does
    not determine the tags: a series whose observation has the one tag
    [k1] with value [v1",k2="v2] has a rendering equal, byte for byte, to a
    rendering of the same series with the two tags [k1="v1"] and [k2="v2"]. *)
Theorem tags_not_escaped (Sprintf_v : float64 → string) (name type help : string)
    (k1 v1 k2 v2 : string) (value : float64) :
  k1 ≠ k2 →
  ∃ r1 r2,
    Output Sprintf_v
      {| Name := name; Type_ := type; Comment := help;
         Metrics := [ {| Tags := {[ k1 := v1 +:+ quote +:+ "," +:+ k2 +:+ "=" +:+ quote +:+ v2 ]};
                         Value := value |} ] |} r1
    ∧ Output Sprintf_v
        {| Name := name; Type_ := type; Comment := help;
           Metrics := [ {| Tags := <[ k2 := v2 ]> {[ k1 := v1 ]}; Value := value |} ] |} r2
    ∧ r1.2 = r2.2.
Proof.
  intros Hne.
  eexists (Output_with Sprintf_v _
             [[(k1, v1 +:+ quote +:+ "," +:+ k2 +:+ "=" +:+ quote +:+ v2)]]),
          (Output_with Sprintf_v _ [[(k1, v1); (k2, v2)]]).
  split_and!.
  - eexists. split; [|reflexivity]. repeat constructor.
    unfold range_order. cbn [Tags]. by rewrite map_to_list_singleton.
  - eexists. split; [|reflexivity]. constructor; [|constructor].
    unfold range_order. cbn [Tags]. rewrite map_to_list_insert.
    + rewrite map_to_list_singleton. apply perm_swap.
    + by rewrite lookup_singleton_ne.
  - rewrite !Output_with_spec. cbn [Name Type_ Comment Metrics zip_with Value].
    do 3 f_equal. unfold observation_line, tag_fragment, tag_pair.
    cbn [fmap list_fmap Join fst snd]. by rewrite !string_app_assoc.
Qed.

Lemma tags_not_escaped_witness :
  ∃ r1 r2,
    Output Example.format_plain
      {| Name := "disk_read_bytes"; Type_ := "COUNTER"; Comment := "bytes read";
         Metrics := [ {| Tags := {[ "device" := "sda" +:+ quote +:+ "," +:+ "mountpoint" +:+ "="
                                                +:+ quote +:+ "/" ]};
                         Value := S754_zero false |} ] |} r1
    ∧ Output Example.format_plain
        {| Name := "disk_read_bytes"; Type_ := "COUNTER"; Comment := "bytes read";
           Metrics := [ {| Tags := <[ "mountpoint" := "/" ]> {[ "device" := "sda" ]};
                           Value := S754_zero false |} ] |} r2
    ∧ r1.2 = r2.2.
Proof.
  apply (tags_not_escaped Example.format_plain "disk_read_bytes" "COUNTER" "bytes read"
           "device" "sda" "mountpoint" "/" (S754_zero false)).
  discriminate.
Defined.

Lemma Output_with_pair (Sprintf_v : float64 → string) (g : MetricGroup)
    (visits : list (list (string * string))) :
  Output_with Sprintf_v g visits
  = (g, [help_line (Name g) (Type_ g) (Comment g); type_line (Name g) (Type_ g)]
        ++ zip_with (λ m visit, observation_line Sprintf_v (Name g) visit (Value m))
                    (Metrics g) visits
        ++ [newline]).
Proof. rewrite <- Output_with_spec. reflexivity. Qed.

(** X8. [AddMetric] then [Output] is [Output] with one more line: the
    renderings of a series after an append are exactly the renderings of the
    series before it with the new observation's line put before the final
    blank line, the tags of the new observation in any order. *)
Theorem Output_after_AddMetric (Sprintf_v : float64 → string) (g : MetricGroup)
    (tags : gmap string string) (value : float64) (r : MetricGroup * list string) :
  Output Sprintf_v (AddMetric g tags value) r ↔
  ∃ body visit,
    Output Sprintf_v g (g, body ++ [newline])
    ∧ range_order tags visit
    ∧ r = (AddMetric g tags value,
           body ++ [ Name g +:+ tag_fragment visit +:+ " " +:+ Sprintf_v value +:+ newline;
                     newline ]).
Proof.
  split.
  - intros (Hg & visits & Hvisits & Hr)%Output_inv.
    cbn [AddMetric Metrics Name Type_ Comment] in Hvisits, Hr.
    apply Forall2_app_inv_l in Hvisits as (visits0 & last & Hvisits0 & Hlast & ->).
    inversion Hlast as [|? visit ? ? Hvisit Hnil]; subst. inversion Hnil; subst.
    rewrite zip_with_app in Hr by (by eapply Forall2_length).
    exists ([help_line (Name g) (Type_ g) (Comment g); type_line (Name g) (Type_ g)]
            ++ zip_with (λ m visit, observation_line Sprintf_v (Name g) visit (Value m))
                        (Metrics g) visits0),
           visit.
    split_and!.
    + exists visits0. split; [done|].
      by rewrite Output_with_pair, <- (assoc_L (++)).
    + exact Hvisit.
    + destruct r as [g' out]. cbn [fst snd] in Hg, Hr. subst g' out.
      f_equal. cbn [zip_with Value]. by rewrite <- !(assoc_L (++)).
  - intros (body & visit & (_ & visits0 & Hvisits0 & Hbody)%Output_inv & Hvisit & ->).
    cbn [snd] in Hbody.
    rewrite (assoc_L (++) [_; _]) in Hbody. apply app_inj_tail in Hbody as [-> _].
    exists (visits0 ++ [visit]). split.
    + cbn [AddMetric Metrics]. apply Forall2_app; [done|]. by repeat constructor.
    + rewrite Output_with_pair. cbn [AddMetric Metrics Name Type_ Comment].
      rewrite zip_with_app by (by eapply Forall2_length).
      cbn [zip_with Value]. by rewrite <- !(assoc_L (++)).
Qed.

(** * The conversion of the counters *)

Section Conversion.

Local Open Scope Z_scope.

Lemma digits2_pos_iter (p k : positive) :
  digits2_pos (Pos.iter xO p k) = (digits2_pos p + k)%positive.
Proof.
  induction k as [|k IH] using Pos.peano_ind.
  - cbn. lia.
  - rewrite Pos.iter_succ. cbn [digits2_pos]. rewrite IH. lia.
Qed.

Lemma Zpos_iter (p k : positive) : Z.pos (Pos.iter xO p k) = Z.pos p * 2 ^ Z.pos k.
Proof.
  induction k as [|k IH] using Pos.peano_ind.
  - cbn. lia.
  - rewrite Pos.iter_succ, Pos2Z.inj_succ, Z.pow_succ_r by lia.
    rewrite (Pos2Z.inj_xO (Pos.iter xO p k)), IH. lia.
Qed.

Lemma digits2_pos_bounds (p : positive) :
  2 ^ (Z.pos (digits2_pos p) - 1) ≤ Z.pos p < 2 ^ Z.pos (digits2_pos p).
Proof.
  induction p as [p IH|p IH|].
  - cbn [digits2_pos]. rewrite Pos2Z.inj_succ, (Pos2Z.inj_xI p).
    replace (Z.succ (Z.pos (digits2_pos p)) - 1) with (Z.succ (Z.pos (digits2_pos p) - 1)) by lia.
    rewrite !Z.pow_succ_r by lia.
    set (a := 2 ^ (Z.pos (digits2_pos p) - 1)) in *.
    set (b := 2 ^ Z.pos (digits2_pos p)) in *. clearbody a b. lia.
  - cbn [digits2_pos]. rewrite Pos2Z.inj_succ, (Pos2Z.inj_xO p).
    replace (Z.succ (Z.pos (digits2_pos p)) - 1) with (Z.succ (Z.pos (digits2_pos p) - 1)) by lia.
    rewrite !Z.pow_succ_r by lia.
    set (a := 2 ^ (Z.pos (digits2_pos p) - 1)) in *.
    set (b := 2 ^ Z.pos (digits2_pos p)) in *. clearbody a b. lia.
  - cbn. lia.
Qed.

Lemma binary_round_aux_exact (m : positive) (e : Z) :
  Z.pos (digits2_pos m) = 53 → -1074 ≤ e ≤ 971 →
  binary_round_aux 53 1024 false (Z.pos m) e loc_Exact = S754_finite false m e.
Proof.
  intros Hdigits He.
  assert (fexp 53 1024 (Z.pos (digits2_pos m) + e) - e = 0) as Hshift.
  { unfold fexp, emin. lia. }
  unfold binary_round_aux, shr_fexp. cbn [Zdigits2 shr_record_of_loc].
  rewrite Hshift. cbn [shr shr_m loc_of_shr_record round_nearest_even Zdigits2].
  rewrite Hshift. cbn [shr shr_m].
  destruct (Z.leb_spec e (1024 - 53)); [reflexivity|lia].
Qed.

Lemma binary_round_exact (p : positive) :
  Z.pos p < 2 ^ 53 →
  ∃ m e, binary_round 53 1024 false p 0 = S754_finite false m e
         ∧ -52 ≤ e ≤ 0 ∧ Z.pos m = Z.pos p * 2 ^ (- e).
Proof.
  intros Hsmall. pose proof (digits2_pos_bounds p) as [Hlow _].
  assert (Z.pos (digits2_pos p) ≤ 53) as Hdigits.
  { destruct (Z.le_gt_cases (Z.pos (digits2_pos p)) 53) as [|Hbig]; [done|].
    assert (2 ^ 53 ≤ 2 ^ (Z.pos (digits2_pos p) - 1)) by (apply Z.pow_le_mono_r; lia). lia. }
  unfold binary_round.
  assert (fexp 53 1024 (Z.pos (digits2_pos p) + 0) = Z.pos (digits2_pos p) - 53) as ->.
  { unfold fexp, emin. lia. }
  unfold shl_align.
  destruct (Z.pos (digits2_pos p) - 53 - 0) as [|k|k] eqn:Hk; [|lia|].
  - exists p, 0. split; [|split; [lia|cbn; lia]].
    apply binary_round_aux_exact; lia.
  - exists (Pos.iter xO p k), (Z.pos (digits2_pos p) - 53). split; [|split].
    + apply binary_round_aux_exact; [|lia]. rewrite digits2_pos_iter. lia.
    + lia.
    + rewrite Zpos_iter. do 2 f_equal. lia.
Qed.

End Conversion.

(** X9. The conversion of a counter to [float64] is exact below 2^53: the
    float stands for the counter itself.  The bound is sharp: 2^53 + 1 is
    converted to the float of 2^53. *)
Theorem float64_of_uint64_exact (n : Z) :
  (0 ≤ n < 2 ^ 53)%Z →
  float64_integer (float64_of_uint64 n) = Some n
  ∧ float64_of_uint64 (2 ^ 53 + 1) = float64_of_uint64 (2 ^ 53).
Proof.
  intros [Hpos Hsmall]. split; [|reflexivity].
  unfold float64_of_uint64, binary_normalize.
  destruct n as [|p|p]; [reflexivity| |lia].
  destruct (binary_round_exact p Hsmall) as (m & e & -> & He & Hm).
  unfold float64_integer. case_bool_decide as He0.
  - assert (e = 0%Z) as -> by lia. f_equal; cbn in Hm; lia.
  - rewrite Hm, Z.mod_mul, Z.div_mul by lia.
    rewrite bool_decide_eq_true_2 by done. f_equal; lia.
Qed.

Lemma float64_of_uint64_exact_witness :
  (0 ≤ 123456789 < 2 ^ 53)%Z
  ∧ float64_integer (float64_of_uint64 123456789) = Some 123456789%Z.
Proof.
  assert (0 ≤ 123456789 < 2 ^ 53)%Z as Hrange by (split; [discriminate|reflexivity]).
  split; [exact Hrange|].
  exact (proj1 (float64_of_uint64_exact 123456789 Hrange)).
Defined.
